(** * Proof of work and chained digest of roulettecoin-core

  A shallow embedding of [src/pow.cpp] (difficulty retargeting and the
  proof-of-work check) and of [RouletteHash] in [src/hash.h], with the
  properties the specification states about them.

  Integers of the C++ code are values of [Z]; every signed operation is
  checked against the range of its type, an overflow, a division by zero,
  a failed [assert] or an uncaught exception ending the run.  What the code
  writes to [std::cout] is kept as a list of tokens. *)

From Stdlib Require Import ZArith NArith List Bool Lia String.
From Stdlib Require Import Strings.Byte.
#[warnings="-stdlib-vector"] From Stdlib Require Vector.
Import ListNotations.
Local Open Scope Z_scope.

(** ** The C++ run: a value and the text written, or no result *)

Module Cxx.

(** One item sent to [std::cout] with [<<]. *)
Inductive token : Type :=
| Str (s : string)
| Num (z : Z)
| Endl.

(** [None]: the run has no result (undefined behaviour, failed assertion,
    exception that nothing catches). *)
Definition M (A : Type) : Type := option (A * list token).

Definition ret {A} (a : A) : M A := Some (a, []).

Definition bind {A B} (m : M A) (f : A -> M B) : M B :=
  match m with
  | None => None
  | Some (a, o1) =>
      match f a with
      | None => None
      | Some (b, o2) => Some (b, o1 ++ o2)
      end
  end.

Definition abort {A} : M A := None.

Definition cout (ts : list token) : M unit := Some (tt, ts).

Definition assert (b : bool) : M unit := if b then ret tt else abort.

(** The value a run returns and the text it wrote. *)
Definition returns {A} (m : M A) (a : A) : Prop := exists o, m = Some (a, o).

Definition INT_MIN : Z := - 2 ^ 31.
Definition INT_MAX : Z := 2 ^ 31 - 1.
Definition INT64_MIN : Z := - 2 ^ 63.
Definition INT64_MAX : Z := 2 ^ 63 - 1.
Definition UINT32_MAX : Z := 2 ^ 32 - 1.

Definition in_int (z : Z) : bool := (INT_MIN <=? z) && (z <=? INT_MAX).
Definition in_int64 (z : Z) : bool := (INT64_MIN <=? z) && (z <=? INT64_MAX).
Definition in_uint32 (z : Z) : bool := (0 <=? z) && (z <=? UINT32_MAX).

(** Result of a signed operation on [int]: overflow is undefined. *)
Definition int (z : Z) : M Z := if in_int z then ret z else abort.

(** Result of a signed operation on [int64_t]. *)
Definition int64 (z : Z) : M Z := if in_int64 z then ret z else abort.

(** [a / b] and [a % b] on [int64_t]: truncation toward zero, undefined
    for [b = 0] and when the quotient is not representable. *)
Definition int64_div (a b : Z) : M Z :=
  if b =? 0 then abort else int64 (Z.quot a b).

Definition int64_rem (a b : Z) : M Z :=
  if b =? 0 then abort
  else if in_int64 (Z.quot a b) then ret (Z.rem a b) else abort.

(** Conversion of an [int64_t] to [int] (narrowing, modulo 2^32). *)
Definition to_int (z : Z) : Z := (z + 2 ^ 31) mod 2 ^ 32 - 2 ^ 31.

End Cxx.

Declare Scope cxx_scope.
Delimit Scope cxx_scope with cxx.
Notation "x <- m ;; k" := (Cxx.bind m (fun x => k))
(at level 61, m at next level, right associativity) : cxx_scope.
Notation "m ;;; k" := (Cxx.bind m (fun _ => k))
(at level 61, right associativity) : cxx_scope.

(** ** 256-bit unsigned arithmetic and the compact encoding *)

Module arith_uint256.

(** Modelled from the spec: the 256-bit unsigned-integer type of
    arith_uint256.h, which is not among the sources ("a 256-bit
    unsigned-integer arithmetic type supporting construction from/to
    compact encoding, multiplication, division, and ordered comparison").
    A value is an integer in [0, 2^256); products are reduced modulo 2^256,
    quotients truncate, and a division by zero throws. *)
Definition modulus : Z := 2 ^ 256.

(** Modelled from the spec: a result of "unsigned 256-bit arithmetic" keeps
    its low 256 bits. *)
Definition wrap (z : Z) : Z := z mod modulus.

(** Modelled from the spec: "construction" of a 256-bit value from a 64-bit
    integer; an [int64_t] operand converts to [uint64_t] first. *)
Definition of_uint64 (z : Z) : Z := z mod 2 ^ 64.

(** Modelled from the spec: "multiplication", [operator*=]. *)
Definition mul (a b : Z) : Z := wrap (a * b).

(** Modelled from the spec: the operand of the "multiplication" by an
    integer.  The [operator*=] that arith_uint256.h, not among the sources,
    declares for an integer takes a [uint32_t]: an [int64_t] argument is
    narrowed to its low 32 bits. *)
Definition of_uint32 (z : Z) : Z := z mod 2 ^ 32.

(** Modelled from the spec: "division", [operator/=]; it "truncates toward
    zero", and a zero divisor throws. *)
Definition div (a b : Z) : Cxx.M Z :=
  if b =? 0 then Cxx.abort else Cxx.ret (a / b).

(** Modelled from the spec: the number of significant bits, from which
    [Encode] "finds the minimal byte-size representation". *)
Definition bits (x : Z) : Z := if x =? 0 then 0 else Z.log2 x + 1.

(** Modelled from the spec: the minimal byte size of a value. *)
Definition bytes (x : Z) : Z := (bits x + 7) / 8.

(** Modelled from the spec: [Decode] (section 4.1).  The top byte of the
    compact value is the exponent [e], the low three bytes hold the
    mantissa with the sign in their top bit (0x00800000); the magnitude [m]
    is the remaining 23 bits.  [e <= 3]: [m >> 8*(3-e)]; [e > 3]:
    [m << 8*(e-3)], kept to 256 bits.  [negative] is the sign bit;
    [overflow] holds when [m <> 0] and [e > 34], or the shifted value needs
    more than 32 bytes. *)
Definition SetCompact (nCompact : Z) : Z * bool * bool :=
  let nSize := Z.shiftr nCompact 24 in
  let nWord := Z.land nCompact 0x007fffff in
  let target :=
    if nSize <=? 3 then Z.shiftr nWord (8 * (3 - nSize))
    else wrap (Z.shiftl nWord (8 * (nSize - 3))) in
  let fNegative := Z.testbit nCompact 23 in
  let fOverflow :=
    negb (nWord =? 0) && ((34 <? nSize) || (32 <? nSize - 3 + bytes nWord)) in
  (target, fNegative, fOverflow).

(** Modelled from the spec: [Encode] (section 4.1).  The minimal byte size
    of the value is the exponent, its top three bytes the mantissa; when
    the mantissa's top bit is set the mantissa loses its low byte and the
    exponent grows by one, so that the sign bit stays clear. *)
Definition GetCompact (x : Z) : Z :=
  let nSize := bytes x in
  let nCompact :=
    if nSize <=? 3 then Z.shiftl x (8 * (3 - nSize))
    else Z.shiftr x (8 * (nSize - 3)) in
  let '(nCompact, nSize) :=
    if Z.testbit nCompact 23 then (Z.shiftr nCompact 8, nSize + 1)
    else (nCompact, nSize) in
  Z.lor nCompact (Z.shiftl nSize 24).

(** [SetCompact] called without the two flag pointers. *)
Definition target_of (nCompact : Z) : Z := fst (fst (SetCompact nCompact)).

End arith_uint256.

(** ** Block index, header and consensus parameters *)

Module Chain.

(** Modelled from the spec: the 256-bit blob type of uint256.h, not among
    the sources; a blob is represented by the unsigned 256-bit integer
    that [UintToArith256] reads from it. *)
Definition uint256 : Type := Z.

(** Modelled from the spec: the blob "as unsigned 256-bit integer". *)
Definition UintToArith256 (x : uint256) : Z := x.

(** Modelled from the spec: the block index entry of chain.h
    ("BlockHeaderView": height, timestamp, previous link, stored compact
    bits).  [pprev = None] is the null pointer of the oldest entry. *)
#[warnings="-register-all"] Inductive CBlockIndex : Type := mkBlockIndex {
  nHeight : Z;            (* int *)
  nTime : Z;              (* uint32_t *)
  nBits : Z;              (* uint32_t *)
  pprev : option CBlockIndex
}.

(** Modelled from the spec: the "timestamp" of an entry, [nTime] as an
    [int64_t]. *)
Definition GetBlockTime (idx : CBlockIndex) : Z := nTime idx.

(** Modelled from the spec: "ancestor at height H" lookup of chain.cpp,
    which fails (null) when [H] is out of range. *)
Fixpoint GetAncestor (idx : CBlockIndex) (height : Z) : option CBlockIndex :=
  if (height >? nHeight idx) || (height <? 0) then None
  else if nHeight idx =? height then Some idx
  else match pprev idx with
       | None => None
       | Some prev => GetAncestor prev height
       end.

(** Modelled from the spec: the candidate header of primitives/block.h, of
    which the retargeting reads the "candidateTimestamp" only. *)
Record CBlockHeader : Type := mkBlockHeader {
  hdr_nTime : Z           (* uint32_t *)
}.

(** Modelled from the spec: [pblock->GetBlockTime()], the
    "candidateTimestamp". *)
Definition HeaderBlockTime (b : CBlockHeader) : Z := hdr_nTime b.

(** Induction along the [pprev] links. *)
Fixpoint chain_ind (P : CBlockIndex -> Prop)
    (Holdest : forall h t b, P (mkBlockIndex h t b None))
    (Hlink : forall h t b prev, P prev -> P (mkBlockIndex h t b (Some prev)))
    (idx : CBlockIndex) : P idx :=
  match idx with
  | mkBlockIndex h t b None => Holdest h t b
  | mkBlockIndex h t b (Some prev) =>
      Hlink h t b prev (chain_ind P Holdest Hlink prev)
  end.

(** Modelled from the spec: Consensus::Params of consensus/params.h
    ("ConsensusParams"). *)
Record Params : Type := mkParams {
  powLimit : uint256;
  fPowAllowMinDifficultyBlocks : bool;
  fPowNoRetargeting : bool;
  nPowTargetSpacing : Z;  (* int64_t *)
  nPowTargetTimespan : Z  (* int64_t *)
}.

(** Modelled from the spec: "blocks per window, derived from
    timespan/spacing". *)
Definition DifficultyAdjustmentInterval (params : Params) : Cxx.M Z :=
  Cxx.int64_div (nPowTargetTimespan params) (nPowTargetSpacing params).

End Chain.

(** ** pow.cpp *)

Module Pow.
Import Cxx arith_uint256 Chain.
Local Open Scope cxx_scope.

(** The value of [bnNew] at the [return] of [CalculateNextWorkRequired],
    on the path that retargets: the timespan of the window, limited to
    [nPowTargetTimespan/4 .. nPowTargetTimespan*4], scales the old target,
    and the result is capped by the proof-of-work limit.  The timespan
    enters [bnNew *= nActualTimespan] as a 32-bit operand, and
    [bnNew /= params.nPowTargetTimespan] as a 256-bit one. *)
Definition CalculateNextTarget (pindexLast : CBlockIndex) (nFirstBlockTime : Z)
    (params : Params) : M Z :=
  (* Limit adjustment step *)
  nActualTimespan <- int64 (GetBlockTime pindexLast - nFirstBlockTime) ;;
  cout [Str " nActualTimespan = "; Num nActualTimespan;
        Str "  before bounds"; Endl] ;;;
  lo <- int64_div (nPowTargetTimespan params) 4 ;;
  nActualTimespan <- ret (if nActualTimespan <? lo then lo else nActualTimespan) ;;
  hi <- int64 (nPowTargetTimespan params * 4) ;;
  nActualTimespan <- ret (if nActualTimespan >? hi then hi else nActualTimespan) ;;
  (* Retarget *)
  let bnPowLimit := UintToArith256 (powLimit params) in
  let bnNew := target_of (nBits pindexLast) in
  let bnNew := mul bnNew (of_uint32 nActualTimespan) in
  bnNew <- div bnNew (of_uint64 (nPowTargetTimespan params)) ;;
  ret (if bnNew >? bnPowLimit then bnPowLimit else bnNew).

(** [CalculateNextWorkRequired]: the stored bits when retargeting is off,
    else the compact form of the new target. *)
Definition CalculateNextWorkRequired (pindexLast : CBlockIndex)
    (nFirstBlockTime : Z) (params : Params) : M Z :=
  if fPowNoRetargeting params then ret (nBits pindexLast)
  else
    bnNew <- CalculateNextTarget pindexLast nFirstBlockTime params ;;
    ret (GetCompact bnNew).

(** The [while] loop of [GetNextWorkRequired]: back to the last block that
    is not a special minimum-difficulty block. *)
Fixpoint last_non_special (params : Params) (nProofOfWorkLimit : Z)
    (pindex : CBlockIndex) : M CBlockIndex :=
  match pprev pindex with
  | None => ret pindex
  | Some prev =>
      interval <- DifficultyAdjustmentInterval params ;;
      r <- int64_rem (nHeight pindex) interval ;;
      if negb (r =? 0) && (nBits pindex =? nProofOfWorkLimit)
      then last_non_special params nProofOfWorkLimit prev
      else ret pindex
  end.

(** [GetNextWorkRequired]; [pindexLast = None] is the null pointer. *)
Definition GetNextWorkRequired (pindexLast : option CBlockIndex)
    (pblock : CBlockHeader) (params : Params) : M Z :=
  match pindexLast with
  | None => abort                       (* assert(pindexLast != nullptr) *)
  | Some pindexLast =>
      let nProofOfWorkLimit := GetCompact (UintToArith256 (powLimit params)) in
      (* Only change once per difficulty adjustment interval *)
      next <- int (nHeight pindexLast + 1) ;;
      interval <- DifficultyAdjustmentInterval params ;;
      r <- int64_rem next interval ;;
      if negb (r =? 0) then
        if fPowAllowMinDifficultyBlocks params then
          twice <- int64 (nPowTargetSpacing params * 2) ;;
          late <- int64 (GetBlockTime pindexLast + twice) ;;
          if HeaderBlockTime pblock >? late then ret nProofOfWorkLimit
          else
            pindex <- last_non_special params nProofOfWorkLimit pindexLast ;;
            ret (nBits pindex)
        else ret (nBits pindexLast)
      else
        (* Go back by what we want to be 14 days worth of blocks *)
        interval <- DifficultyAdjustmentInterval params ;;
        back <- int64 (interval - 1) ;;
        first <- int64 (nHeight pindexLast - back) ;;
        let nHeightFirst := to_int first in
        assert (nHeightFirst >=? 0) ;;;
        match GetAncestor pindexLast nHeightFirst with
        | None => abort                 (* assert(pindexFirst) *)
        | Some pindexFirst =>
            CalculateNextWorkRequired pindexLast (GetBlockTime pindexFirst) params
        end
  end.

(** The two lines that [CheckProofOfWork] writes before it returns
    [false]. *)
Definition range_diagnostic (nBits : Z) : list token :=
  [Str "CheckProofOfWork() : nBits below minimum work: "; Num nBits].

Definition work_diagnostic (nBits : Z) : list token :=
  [Str "CheckProofOfWork() : hash doesn't match nBits: "; Num nBits].

(** [CheckProofOfWork]. *)
Definition CheckProofOfWork (hash : uint256) (nBits : Z) (params : Params)
    : M bool :=
  let '(bnTarget, fNegative, fOverflow) := SetCompact nBits in
  (* Check range *)
  if fNegative || (bnTarget =? 0) || fOverflow
     || (bnTarget >? UintToArith256 (powLimit params))
  then cout (range_diagnostic nBits) ;;; ret false
  else
    (* Check proof of work matches claimed amount *)
    if UintToArith256 hash >? bnTarget
    then cout (work_diagnostic nBits) ;;; ret false
    else ret true.

End Pow.

(** ** The hash primitives *)

Module Sph.

(** The 64-byte buffer [unsigned char hash[64]] ("Digest64"). *)
Definition digest64 : Type := Vector.t byte 64.

(** Modelled from the spec: one 512-bit primitive of the hash library
    (the sphlib headers are not among the sources): "an {initialize,
    absorb(bytes), finalize() -> 64 bytes} contract".  [init] is the state
    that [sph_X_init] gives a context, whatever it held before; [close]
    leaves a context behind and writes the 64 bytes. *)
Record primitive : Type := mkPrimitive {
  context : Type;
  init : context;
  absorb : context -> list byte -> context;
  close : context -> context * digest64
}.

(** The sixteen primitives that [RouletteHash] declares a context for. *)
Inductive algo : Type :=
| blake512 | bmw512 | cubehash512 | echo512
| fugue512 | groestl512 | hamsi512 | jh512
| keccak512 | luffa512 | sha512 | shabal512
| shavite512 | simd512 | skein512 | whirlpool.

(** Two of the sixteen names are the same or not. *)
Definition algo_eq_dec (a b : algo) : {a = b} + {a <> b}.
Proof. decide equality. Defined.

(** The hash library: a primitive for each name. *)
Definition library : Type := algo -> primitive.

(** The digest of a byte string by one primitive, from a fresh state. *)
Definition digest (p : primitive) (data : list byte) : digest64 :=
  snd (close p (absorb p (init p) data)).

End Sph.

(** ** hash.h: RouletteHash *)

Module Roulette.
Import Sph.

(** [&pbegin[0]]: the place of the first element of the range
    [pbegin, pend), given as the elements found from there on.  An empty
    range has no first element: [pbegin[0]] is then [*pend], which the
    range does not cover. *)
Definition first_element {A : Type} (range : list A) : option (list A) :=
  match range with
  | [] => None
  | _ :: _ => Some range
  end.

(** [pbegin == pend]. *)
Definition is_empty {A : Type} (range : list A) : bool :=
  match range with
  | [] => true
  | _ :: _ => false
  end.

Section WithLibrary.

Variable sph : library.

(** The local contexts [ctx_blake] .. [ctx_whirlpool1]. *)
Definition locals : Type := forall a : algo, context (sph a).

(** Assignment to one of the local contexts. *)
Definition set_ctx (a : algo) (c : context (sph a)) (ctx : locals) : locals :=
  fun b =>
    match algo_eq_dec a b with
    | left e => eq_rect a (fun x => context (sph x)) c b e
    | right _ => ctx b
    end.

(** [sph_X_init(&ctx_X); sph_X(&ctx_X, data, len);
    sph_X_close(&ctx_X, hash);] *)
Definition init_update_close (a : algo) (data : list byte) (ctx : locals)
    : locals * digest64 :=
  let ctx := set_ctx a (init (sph a)) ctx in
  let ctx := set_ctx a (absorb (sph a) (ctx a) data) ctx in
  let '(c, hash) := close (sph a) (ctx a) in
  (set_ctx a c ctx, hash).

(** The body of the [for] loop. *)
Definition round (st : locals * digest64) : locals * digest64 :=
  let '(ctx, hash) := st in
  let hdec := N.land (Byte.to_N (Vector.hd hash)) 0xf in
  let data := Vector.to_list hash in
  match hdec with
  | 0 => init_update_close blake512 data ctx
  | 1 => init_update_close bmw512 data ctx
  | 2 => init_update_close cubehash512 data ctx
  | 3 => init_update_close echo512 data ctx
  | 4 => init_update_close fugue512 data ctx
  | 5 => init_update_close groestl512 data ctx
  | 6 => init_update_close hamsi512 data ctx
  | 7 => init_update_close jh512 data ctx
  | 8 => init_update_close keccak512 data ctx
  | 9 => init_update_close luffa512 data ctx
  | 10 => init_update_close sha512 data ctx
  | 11 => init_update_close shabal512 data ctx
  | 12 => init_update_close shavite512 data ctx
  | 13 => init_update_close simd512 data ctx
  | 14 => init_update_close skein512 data ctx
  | 15 => init_update_close whirlpool data ctx
  | _ => (ctx, hash)
  end%N.

(** [RouletteHash(pbegin, pend)] on the bytes of the range; [ctx] is
    what the uninitialised local contexts hold on entry.  The result is
    the 32-byte blob of the returned [uint256].  The global contexts
    [z_blake] .. [z_echo] that the header declares are not referred to. *)
Definition RouletteHash (ctx : locals) (input : list byte)
    : option (list byte) :=
  match first_element input with
  | None => None
  | Some src =>
      let len := List.length input in
      let st := init_update_close sha512 (firstn len src) ctx in
      let '(_, hash) := Nat.iter 16 round st in
      Some (firstn 32 (Vector.to_list hash))
  end.

(** *** The reference definition of the specification *)

(** "The fixed index->algorithm table", index 0 first. *)
Definition table : list algo :=
  [blake512; bmw512; cubehash512; echo512; fugue512; groestl512;
   hamsi512; jh512; keccak512; luffa512; sha512; shabal512;
   shavite512; simd512; skein512; whirlpool].

(** "selector = digest[0] & 0x0F". *)
Definition selector (d : digest64) : nat :=
  N.to_nat (N.land (Byte.to_N (Vector.hd d)) 0x0F).

(** One of the steps 1..16: the primitive whose index equals the selector,
    on the current 64-byte digest as its entire input. *)
Definition reference_round (d : digest64) : digest64 :=
  match nth_error table (selector d) with
  | Some a => digest (sph a) (Vector.to_list d)
  | None => d
  end.

(** [n] chained rounds. *)
Definition rounds (n : nat) (d : digest64) : digest64 :=
  Nat.iter n reference_round d.

(** Step 0, steps 1..16, and the first 32 bytes of the last digest. *)
Definition RouletteHash_reference (input : list byte) : list byte :=
  firstn 32 (Vector.to_list (rounds 16 (digest (sph sha512) input))).

End WithLibrary.

(** *** The guarded sibling: [Hash] *)

Section Sibling.

(** [CSHA256] of crypto/sha256.h, not among the sources: the 32 bytes that
    [Finalize] gives for the bytes written since the last [Reset]. *)
Variable SHA256 : list byte -> list byte.

(** [static const unsigned char pblank[1] = {}]. *)
Definition pblank : list byte := [x00].

(** [Hash(pbegin, pend)]: [CHash256().Write(pbegin == pend ? pblank :
    &pbegin[0], (pend - pbegin) * sizeof(pbegin[0])).Finalize(..)], where
    [CHash256::Finalize] hashes the 32 bytes of the first digest again. *)
Definition Hash (input : list byte) : option (list byte) :=
  match (if is_empty input then Some pblank else first_element input) with
  | None => None
  | Some src =>
      let len := List.length input in
      let buf := SHA256 (firstn len src) in
      Some (SHA256 (firstn 32 buf))
  end.

End Sibling.

(** *** A small library, to run the definitions on *)

(** The stand-ins differ by a tag; a digest is a stream of bytes seeded by
    a checksum of what was absorbed. *)
Definition tag (a : algo) : N :=
  match a with
  | blake512 => 0 | bmw512 => 1 | cubehash512 => 2 | echo512 => 3
  | fugue512 => 4 | groestl512 => 5 | hamsi512 => 6 | jh512 => 7
  | keccak512 => 8 | luffa512 => 9 | sha512 => 10 | shabal512 => 11
  | shavite512 => 12 | simd512 => 13 | skein512 => 14 | whirlpool => 15
  end%N.

Definition byte_of_N (n : N) : byte :=
  match Byte.of_N (n mod 256) with
  | Some b => b
  | None => x00
  end.

Definition checksum (c : list byte) : N :=
  fold_left (fun acc b => (3 * acc + Byte.to_N b) mod 256)%N c 7%N.

Fixpoint stream (n : nat) (seed : N) : Vector.t byte n :=
  match n with
  | O => Vector.nil byte
  | S n' => Vector.cons byte (byte_of_N seed) n' (stream n' (5 * seed + 1)%N)
  end.

Definition toy (a : algo) : primitive :=
  {| context := list byte;
     init := [];
     absorb := fun c data => c ++ data;
     close := fun c => ([], stream 64 (checksum c + tag a)) |}.

(** Some content for the local contexts on entry. *)
Definition toy_locals : locals toy := fun _ => [x2a].

End Roulette.

(** ** The statements of the specification *)

Module Spec.
Import Cxx arith_uint256 Chain.

(** Section 4.1: the two operations of the compact codec. *)
Definition Decode : Z -> Z * bool * bool := SetCompact.

Definition Encode : Z -> Z := GetCompact.

(** Section 4.4: the outcome of the proof-of-work check. *)
Inductive PowError : Type := InvalidTarget | InsufficientWork.

Definition CheckProofOfWork_spec (hash bits : Z) (params : Params)
    : option PowError :=
  let '(target, negative, overflow) := Decode bits in
  if negative || overflow || (target =? 0) || (powLimit params <? target)
  then Some InvalidTarget
  else if target <? hash then Some InsufficientWork
  else None.

(** How the code shows an outcome: the boolean it returns and the line it
    writes. *)
Definition shown (bits : Z) (r : option PowError) : M bool :=
  match r with
  | None => Some (true, [])
  | Some InvalidTarget => Some (false, Pow.range_diagnostic bits)
  | Some InsufficientWork => Some (false, Pow.work_diagnostic bits)
  end.

Definition clamp (x lo hi : Z) : Z := Z.min (Z.max x lo) hi.

(** Section 4.3: [newTarget], before it is encoded. *)
Definition newTarget (bits actualTimespan : Z) (params : Params) : Z :=
  let targetTimespan := nPowTargetTimespan params in
  let a := clamp actualTimespan (targetTimespan / 4) (targetTimespan * 4) in
  Z.min (powLimit params)
        (wrap (fst (fst (Decode bits)) * a) / targetTimespan).

(** What the code computes for [newTarget]: the same, with the clamped
    timespan taken by its low 32 bits in the product. *)
Definition computedTarget (bits actualTimespan : Z) (params : Params) : Z :=
  let targetTimespan := nPowTargetTimespan params in
  let a := clamp actualTimespan (targetTimespan / 4) (targetTimespan * 4) in
  Z.min (powLimit params)
        (wrap (fst (fst (Decode bits)) * (a mod 2 ^ 32)) / targetTimespan).

(** The bits that the code returns for it. *)
Definition computedWork (lastHeader : CBlockIndex) (firstBlockTime : Z)
    (params : Params) : Z :=
  if fPowNoRetargeting params then nBits lastHeader
  else Encode (computedTarget (nBits lastHeader)
                              (nTime lastHeader - firstBlockTime) params).

Definition CalculateNextWorkRequired_spec (lastHeader : CBlockIndex)
    (firstBlockTime : Z) (params : Params) : Z :=
  if fPowNoRetargeting params then nBits lastHeader
  else Encode (newTarget (nBits lastHeader)
                         (nTime lastHeader - firstBlockTime) params).

(** What [CalculateNextWorkRequired] writes when it retargets. *)
Definition retarget_trace (lastHeader : CBlockIndex) (firstBlockTime : Z)
    (params : Params) : list token :=
  if fPowNoRetargeting params then []
  else [Str " nActualTimespan = "; Num (nTime lastHeader - firstBlockTime);
        Str "  before bounds"; Endl].

(** The retarget interval, in blocks. *)
Definition interval (params : Params) : Z :=
  nPowTargetTimespan params / nPowTargetSpacing params.

(** A block index and all that it links back to, newest first. *)
Fixpoint ancestors (idx : CBlockIndex) : list CBlockIndex :=
  idx :: match pprev idx with
         | None => []
         | Some prev => ancestors prev
         end.

(** Section 4.3, step 1: a block at a retarget boundary or with a
    difficulty other than the minimum ends the walk. *)
Definition breaks_walk (params : Params) (b : CBlockIndex) : bool :=
  (nHeight b mod interval params =? 0)
  || negb (nBits b =? Encode (powLimit params)).

Definition walk_stop (params : Params) (lastHeader : CBlockIndex)
    : CBlockIndex :=
  match find (breaks_walk params) (ancestors lastHeader) with
  | Some b => b
  | None => List.last (ancestors lastHeader) lastHeader
  end.

(** Values of the consensus parameters that the arithmetic of pow.cpp is
    defined on: a positive spacing no longer than the timespan, a timespan
    whose fourfold is an [int64_t], a limit of 256 bits. *)
Definition params_ok (params : Params) : bool :=
  (0 <? nPowTargetSpacing params)
  && (nPowTargetSpacing params <=? nPowTargetTimespan params)
  && (nPowTargetTimespan params * 4 <=? INT64_MAX)
  && (0 <=? powLimit params) && (powLimit params <? modulus).

(** Fields within their C++ types, all along the chain. *)
Fixpoint index_ok (idx : CBlockIndex) : bool :=
  in_int (nHeight idx) && in_uint32 (nTime idx) && in_uint32 (nBits idx)
  && match pprev idx with
     | None => true
     | Some prev => index_ok prev
     end.

End Spec.

(** ** Concrete parameters and chains *)

Module Examples.
Import Chain.

(** A limit of 0x1d00ffff, two-week windows of ten-minute blocks. *)
Definition main_params : Params :=
  {| powLimit := 0xffff * 2 ^ 208;
     fPowAllowMinDifficultyBlocks := false;
     fPowNoRetargeting := false;
     nPowTargetSpacing := 600;
     nPowTargetTimespan := 1209600 |}.

(** Windows of two blocks, minimum-difficulty blocks allowed. *)
Definition test_params : Params :=
  {| powLimit := 0xffff * 2 ^ 208;
     fPowAllowMinDifficultyBlocks := true;
     fPowNoRetargeting := false;
     nPowTargetSpacing := 600;
     nPowTargetTimespan := 1200 |}.

(** Windows of four blocks, minimum-difficulty blocks allowed. *)
Definition test4_params : Params :=
  {| powLimit := 0xffff * 2 ^ 208;
     fPowAllowMinDifficultyBlocks := true;
     fPowNoRetargeting := false;
     nPowTargetSpacing := 600;
     nPowTargetTimespan := 2400 |}.

(** A target timespan of 2^32 seconds. *)
Definition long_params : Params :=
  {| powLimit := 0xffff * 2 ^ 208;
     fPowAllowMinDifficultyBlocks := false;
     fPowNoRetargeting := false;
     nPowTargetSpacing := 600;
     nPowTargetTimespan := 2 ^ 32 |}.

(** No retargeting. *)
Definition fixed_params : Params :=
  {| powLimit := 0xffff * 2 ^ 208;
     fPowAllowMinDifficultyBlocks := true;
     fPowNoRetargeting := true;
     nPowTargetSpacing := 600;
     nPowTargetTimespan := 1209600 |}.

(** A limit of 0x207fffff and retargeting. *)
Definition wide_params : Params :=
  {| powLimit := 0x7fffff * 2 ^ 232;
     fPowAllowMinDifficultyBlocks := false;
     fPowNoRetargeting := false;
     nPowTargetSpacing := 600;
     nPowTargetTimespan := 1209600 |}.

Definition block0 : CBlockIndex := mkBlockIndex 0 1000 0x1c00ffff None.
Definition block1 : CBlockIndex := mkBlockIndex 1 1600 0x1c00ffff (Some block0).

(** Heights 4..6 of a chain with windows of four blocks: a boundary block
    with a real difficulty, then two minimum-difficulty blocks. *)
Definition b4 : CBlockIndex := mkBlockIndex 4 5000 0x1c00ffff None.
Definition b5 : CBlockIndex := mkBlockIndex 5 7000 0x1d00ffff (Some b4).
Definition b6 : CBlockIndex := mkBlockIndex 6 9000 0x1d00ffff (Some b5).

Definition tip (bits : Z) : CBlockIndex :=
  mkBlockIndex 2015 1500000000 bits None.

End Examples.

(** ** hash.h: the SHA-256 based hashers *)

Module Hashers.
Import Roulette.

(** [CSHA256] and [CRIPEMD160], declared in crypto/sha256.h and
    crypto/ripemd160.h, which are not among the sources: an object that is
    constructed or [Reset], written to, and finalized.  [hfinalize] gives
    the [OUTPUT_SIZE] bytes and the state that the object is left in. *)
Record hasher : Type := mkHasher {
  hstate : Type;
  hinit : hstate;
  hwrite : hstate -> list byte -> hstate;
  hfinalize : hstate -> list byte * hstate
}.

(** What a hasher of a byte stream does: writing nothing changes nothing,
    and two writes are one write of the two pieces put together. *)
Definition streams (H : hasher) : Prop :=
  (forall s, hwrite H s [] = s)
  /\ (forall s a b, hwrite H (hwrite H s a) b = hwrite H s (a ++ b)).

(** The digest of a byte string by a fresh hasher. *)
Definition one_shot (H : hasher) (data : list byte) : list byte :=
  fst (hfinalize H (hwrite H (hinit H) data)).

(** A template parameter [Source] of [CHashVerifier]: [read(pch, nSize)]
    gives the next [nSize] bytes or throws ([None]). *)
Record source : Type := mkSource {
  sstate : Type;
  sread : sstate -> nat -> option (list byte * sstate);
  sGetType : sstate -> Z;
  sGetVersion : sstate -> Z
}.

(** What a source of a byte stream does: a read gives as many bytes as
    asked for, a read of nothing changes nothing, and a read of [a + b]
    bytes is a read of [a] followed by a read of [b]. *)
Definition sequential (S : source) : Prop :=
  (forall s n bytes s',
      sread S s n = Some (bytes, s') -> List.length bytes = n)
  /\ (forall s, sread S s 0 = Some ([], s))
  /\ (forall s a b,
        sread S s (a + b) =
          match sread S s a with
          | None => None
          | Some (x, s1) =>
              match sread S s1 b with
              | None => None
              | Some (y, s2) => Some (x ++ y, s2)
              end
          end).

Section WithHashers.

Variables sha256 ripemd160 : hasher.

(** *** CHash256 *)

(** A [CHash256] object is its one member, [CSHA256 sha]. *)
Definition CHash256 : Type := hstate sha256.

(** [CHash256()]. *)
Definition CHash256_new : CHash256 := hinit sha256.

(** [CHash256::Finalize]: [sha.Finalize(buf);
    sha.Reset().Write(buf, CSHA256::OUTPUT_SIZE).Finalize(hash);] *)
Definition CHash256_Finalize (h : CHash256) : list byte * CHash256 :=
  let '(buf, sha) := hfinalize sha256 h in
  let sha := hinit sha256 in
  let sha := hwrite sha256 sha (firstn 32 buf) in
  hfinalize sha256 sha.

(** [CHash256::Write(data, len)], given the [len] bytes at [data]. *)
Definition CHash256_Write (h : CHash256) (data : list byte) : CHash256 :=
  hwrite sha256 h data.

(** [CHash256::Reset]. *)
Definition CHash256_Reset (h : CHash256) : CHash256 := hinit sha256.

(** *** CHash160 *)

(** A [CHash160] object is its one member, [CSHA256 sha]. *)
Definition CHash160 : Type := hstate sha256.

Definition CHash160_new : CHash160 := hinit sha256.

(** [CHash160::Finalize]: [sha.Finalize(buf);
    CRIPEMD160().Write(buf, CSHA256::OUTPUT_SIZE).Finalize(hash);] *)
Definition CHash160_Finalize (h : CHash160) : list byte * CHash160 :=
  let '(buf, sha) := hfinalize sha256 h in
  let rmd := hwrite ripemd160 (hinit ripemd160) (firstn 32 buf) in
  (fst (hfinalize ripemd160 rmd), sha).

Definition CHash160_Write (h : CHash160) (data : list byte) : CHash160 :=
  hwrite sha256 h data.

Definition CHash160_Reset (h : CHash160) : CHash160 := hinit sha256.

(** *** The Hash and Hash160 templates *)

(** [pbegin == pend ? pblank : (const unsigned char* )&pbegin[0]]. *)
Definition guarded_first (range : list byte) : option (list byte) :=
  if is_empty range then Some pblank else first_element range.

(** [Hash(pbegin, pend)], the overload for one range, on the bytes of the
    range. *)
Definition Hash1 (input : list byte) : option (list byte) :=
  match guarded_first input with
  | None => None
  | Some src =>
      let h := CHash256_Write CHash256_new (firstn (List.length input) src) in
      Some (fst (CHash256_Finalize h))
  end.

(** [Hash(p1begin, p1end, p2begin, p2end)], the overload for two ranges:
    "the 256-bit hash of the concatenation of two objects". *)
Definition Hash2 (in1 in2 : list byte) : option (list byte) :=
  match guarded_first in1, guarded_first in2 with
  | Some src1, Some src2 =>
      let h := CHash256_Write CHash256_new (firstn (List.length in1) src1) in
      let h := CHash256_Write h (firstn (List.length in2) src2) in
      Some (fst (CHash256_Finalize h))
  | _, _ => None
  end.

(** [Hash160(pbegin, pend)]. *)
Definition Hash160 (input : list byte) : option (list byte) :=
  match guarded_first input with
  | None => None
  | Some src =>
      let h := CHash160_Write CHash160_new (firstn (List.length input) src) in
      Some (fst (CHash160_Finalize h))
  end.

(** [Hash160(const std::vector<unsigned char>& vch)] and
    [Hash160(const prevector<N, unsigned char>& vch)]:
    [Hash160(vch.begin(), vch.end())]. *)
Definition Hash160_vector (vch : list byte) : option (list byte) :=
  Hash160 vch.

(** *** CHashWriter *)

Record CHashWriter : Type := mkCHashWriter {
  ctx : CHash256;
  nType : Z;
  nVersion : Z
}.

(** [CHashWriter(nTypeIn, nVersionIn)]. *)
Definition CHashWriter_new (nTypeIn nVersionIn : Z) : CHashWriter :=
  {| ctx := CHash256_new; nType := nTypeIn; nVersion := nVersionIn |}.

(** [write(pch, size)], given the [size] bytes at [pch]. *)
Definition CHashWriter_write (w : CHashWriter) (data : list byte) : CHashWriter :=
  {| ctx := CHash256_Write (ctx w) data;
     nType := nType w; nVersion := nVersion w |}.

(** [GetHash()]: the result, and the object it leaves ("invalidates the
    object"). *)
Definition CHashWriter_GetHash (w : CHashWriter) : list byte * CHashWriter :=
  let '(result, c) := CHash256_Finalize (ctx w) in
  (result, {| ctx := c; nType := nType w; nVersion := nVersion w |}).

Section Serialization.

(** [::Serialize(s, obj)] of serialize.h, not among the sources, for one
    type of objects: the [write] calls that it makes on the stream, in
    order, which may depend on the type and version of the stream. *)
Variable T : Type.
Variable Serialize : Z -> Z -> T -> list (list byte).

(** [operator<<]: serialize to this stream. *)
Definition CHashWriter_shl (w : CHashWriter) (obj : T) : CHashWriter :=
  fold_left CHashWriter_write (Serialize (nType w) (nVersion w) obj) w.

(** [SerializeHash(obj, nType, nVersion)]. *)
Definition SerializeHash (obj : T) (nType nVersion : Z) : list byte :=
  let ss := CHashWriter_new nType nVersion in
  let ss := CHashWriter_shl ss obj in
  fst (CHashWriter_GetHash ss).

End Serialization.

(** *** CHashVerifier *)

Section Verifier.

Variable Src : source.

(** A [CHashVerifier<Source>]: the [CHashWriter] it derives from, and the
    source that its pointer refers to. *)
Record CHashVerifier : Type := mkCHashVerifier {
  writer : CHashWriter;
  source_ : sstate Src
}.

(** [CHashVerifier(source_)]. *)
Definition CHashVerifier_new (s : sstate Src) : CHashVerifier :=
  {| writer := CHashWriter_new (sGetType Src s) (sGetVersion Src s);
     source_ := s |}.

(** [read(pch, nSize)]: [source->read(pch, nSize); this->write(pch, nSize);]
    with the bytes now at [pch]. *)
Definition CHashVerifier_read (v : CHashVerifier) (nSize : nat)
    : option (list byte * CHashVerifier) :=
  match sread Src (source_ v) nSize with
  | None => None
  | Some (pch, s) =>
      Some (pch, {| writer := CHashWriter_write (writer v) (firstn nSize pch);
                    source_ := s |})
  end.

(** The loop of [ignore]: [while (nSize > 0) { size_t now =
    std::min<size_t>(nSize, 1024); read(data, now); nSize -= now; }].  Each
    turn takes at least one byte off [nSize], so [nSize] turns are enough;
    [turns] counts them down. *)
Fixpoint ignore_loop (turns : nat) (v : CHashVerifier) (nSize : nat)
    : option CHashVerifier :=
  match nSize with
  | O => Some v
  | S _ =>
      match turns with
      | O => None
      | S turns' =>
          let now := Nat.min nSize 1024 in
          match CHashVerifier_read v now with
          | None => None
          | Some (_, v') => ignore_loop turns' v' (nSize - now)
          end
      end
  end.

(** [ignore(nSize)]. *)
Definition CHashVerifier_ignore (v : CHashVerifier) (nSize : nat)
    : option CHashVerifier :=
  ignore_loop nSize v nSize.

End Verifier.

End WithHashers.

(** *** Small instances, to run the definitions on *)

(** A hasher that keeps what was written; its digest is a stream of [size]
    bytes seeded by a checksum. *)
Definition toy_hasher (size : nat) (tag : N) : hasher :=
  {| hstate := list byte;
     hinit := [];
     hwrite := fun s data => s ++ data;
     hfinalize := fun s =>
       (Vector.to_list (stream size (checksum s + tag)), [x00]) |}.

(** A source that holds the bytes still to be read, and throws when asked
    for more than it holds. *)
Definition list_source : source :=
  {| sstate := list byte;
     sread := fun s n =>
       if (n <=? List.length s)%nat then Some (firstn n s, skipn n s) else None;
     sGetType := fun _ => 1;
     sGetVersion := fun _ => 70015 |}.

End Hashers.

(** ** Shapes of a chain *)

Module ChainShape.
Import arith_uint256 Chain Spec.

(** Heights go down by one along the [pprev] links. *)
Fixpoint linked (idx : CBlockIndex) : bool :=
  match pprev idx with
  | None => true
  | Some prev => (nHeight prev =? nHeight idx - 1) && linked prev
  end.

(** The entry without a predecessor. *)
Definition oldest (idx : CBlockIndex) : CBlockIndex :=
  List.last (ancestors idx) idx.

(** A chain that is linked down to a block of height 0. *)
Definition from_genesis (idx : CBlockIndex) : bool :=
  linked idx && (nHeight (oldest idx) =? 0).

(** The stored bits of every block decode to a target within the limit. *)
Definition targets_within (params : Params) (idx : CBlockIndex) : bool :=
  forallb (fun b => target_of (nBits b) <=? powLimit params) (ancestors idx).

End ChainShape.

(** * Proofs *)

(** ** Checked arithmetic *)

Module CxxFacts.
Import Cxx.

(** Side conditions on the ranges of the C++ integer types. *)
Ltac ranges :=
  unfold INT_MIN, INT_MAX, INT64_MIN, INT64_MAX, UINT32_MAX in *; lia.

Lemma in_int64_spec (z : Z) : in_int64 z = true <-> INT64_MIN <= z <= INT64_MAX.
Proof. unfold in_int64. rewrite andb_true_iff, !Z.leb_le. tauto. Qed.

Lemma in_int_spec (z : Z) : in_int z = true <-> INT_MIN <= z <= INT_MAX.
Proof. unfold in_int. rewrite andb_true_iff, !Z.leb_le. tauto. Qed.

Lemma in_uint32_spec (z : Z) : in_uint32 z = true <-> 0 <= z <= UINT32_MAX.
Proof. unfold in_uint32. rewrite andb_true_iff, !Z.leb_le. tauto. Qed.

Lemma int64_defined (z : Z) :
  INT64_MIN <= z <= INT64_MAX -> int64 z = Some (z, []).
Proof.
  intros H. unfold int64. apply in_int64_spec in H. rewrite H. reflexivity.
Qed.

Lemma int_defined (z : Z) : INT_MIN <= z <= INT_MAX -> int z = Some (z, []).
Proof.
  intros H. unfold int. apply in_int_spec in H. rewrite H. reflexivity.
Qed.

(** A quotient by a positive number lies between zero and the dividend. *)
Lemma quot_bounded (a b : Z) :
  0 < b -> Z.min 0 a <= Z.quot a b <= Z.max 0 a.
Proof.
  intros Hb.
  destruct (Z.le_gt_cases 0 a) as [Ha|Ha].
  - rewrite Z.quot_div_nonneg by lia.
    pose proof (Z.div_pos a b Ha Hb).
    pose proof (Z.div_le_upper_bound a b a Hb ltac:(nia)). lia.
  - assert (Hq : Z.quot a b = - (- a / b)).
    { rewrite <- Z.quot_div_nonneg, Z.quot_opp_l by lia. lia. }
    rewrite Hq.
    pose proof (Z.div_pos (- a) b ltac:(lia) Hb).
    pose proof (Z.div_le_upper_bound (- a) b (- a) Hb ltac:(nia)). lia.
Qed.

Lemma int64_div_defined (a b : Z) :
  INT64_MIN <= a <= INT64_MAX -> 0 < b ->
  int64_div a b = Some (Z.quot a b, []).
Proof.
  intros Ha Hb. unfold int64_div.
  destruct (Z.eqb_spec b 0); [lia|].
  apply int64_defined. pose proof (quot_bounded a b Hb). ranges.
Qed.

Lemma int64_rem_defined (a b : Z) :
  INT64_MIN <= a <= INT64_MAX -> 0 < b ->
  int64_rem a b = Some (Z.rem a b, []).
Proof.
  intros Ha Hb. unfold int64_rem.
  destruct (Z.eqb_spec b 0); [lia|].
  assert (H : in_int64 (Z.quot a b) = true).
  { apply in_int64_spec. pose proof (quot_bounded a b Hb). ranges. }
  rewrite H. reflexivity.
Qed.

(** [%] of C++ and the mathematical remainder vanish together. *)
Lemma rem_zero_iff_mod (a b : Z) : 0 < b -> (Z.rem a b =? 0) = (a mod b =? 0).
Proof.
  intros Hb.
  destruct (Z.eqb_spec (Z.rem a b) 0) as [H|H];
    destruct (Z.eqb_spec (a mod b) 0) as [H'|H']; try reflexivity; exfalso.
  - apply H'. apply Z.rem_mod_eq_0; [lia|assumption].
  - apply H. apply Z.rem_mod_eq_0; [lia|assumption].
Qed.

End CxxFacts.

(** ** The compact encoding *)

Module CompactFacts.
Import arith_uint256.

Lemma pow2_pos (k : Z) : 0 <= k -> 0 < 2 ^ k.
Proof. intros; apply Z.pow_pos_nonneg; lia. Qed.

Lemma wrap_small (y : Z) : 0 <= y < modulus -> wrap y = y.
Proof. intros; unfold wrap; apply Z.mod_small; assumption. Qed.

(** Dropping low bits and shifting back never grows a value. *)
Lemma shiftr_shiftl_le (x k : Z) :
  0 <= x -> 0 <= k -> 0 <= Z.shiftl (Z.shiftr x k) k <= x.
Proof.
  intros Hx Hk.
  rewrite Z.shiftl_mul_pow2, Z.shiftr_div_pow2 by lia.
  pose proof (pow2_pos k Hk) as Hp.
  pose proof (Z.mul_div_le x (2 ^ k) Hp).
  pose proof (Z.div_pos x (2 ^ k) Hx Hp).
  nia.
Qed.

Lemma bytes_bounds (x : Z) :
  0 < x -> 1 <= bytes x /\ 2 ^ (8 * (bytes x - 1)) <= x < 2 ^ (8 * bytes x).
Proof.
  intros Hx. unfold bytes, bits.
  destruct (Z.eqb_spec x 0) as [|_]; [lia|].
  pose proof (Z.log2_nonneg x) as Hl.
  destruct (Z.log2_spec x Hx) as [Hlo Hhi].
  set (n := Z.log2 x + 1) in *.
  assert (Hs : 8 * ((n + 7) / 8) <= n + 7 < 8 * ((n + 7) / 8) + 8).
  { pose proof (Z.div_mod (n + 7) 8 ltac:(lia)).
    pose proof (Z.mod_pos_bound (n + 7) 8 ltac:(lia)). lia. }
  split; [subst n; lia|].
  split.
  - apply Z.le_trans with (2 ^ Z.log2 x); [|exact Hlo].
    apply Z.pow_le_mono_r; subst n; lia.
  - apply Z.lt_le_trans with (2 ^ Z.succ (Z.log2 x)); [exact Hhi|].
    apply Z.pow_le_mono_r; subst n; lia.
Qed.

(** The sign bit of a 24-bit mantissa. *)
Lemma testbit23 (c : Z) :
  0 <= c < 2 ^ 24 -> Z.testbit c 23 = (2 ^ 23 <=? c).
Proof.
  intros Hc.
  destruct (Z.leb_spec (2 ^ 23) c) as [H|H].
  - apply Z.testbit_true; [lia|].
    assert (c / 2 ^ 23 = 1) as ->; [|reflexivity].
    symmetry; apply (Z.div_unique c (2 ^ 23) 1 (c - 2 ^ 23)); lia.
  - apply Z.bits_above_log2; [lia|].
    destruct (Z.eq_dec c 0) as [->|Hn]; [reflexivity|].
    apply Z.log2_lt_pow2; lia.
Qed.

(** Decoding a value packed from an exponent and a 23-bit mantissa. *)
Lemma SetCompact_packed (m e : Z) :
  0 <= m < 2 ^ 23 -> 0 <= e ->
  target_of (Z.lor m (Z.shiftl e 24)) =
    if e <=? 3 then Z.shiftr m (8 * (3 - e))
    else wrap (Z.shiftl m (8 * (e - 3))).
Proof.
  intros Hm He. unfold target_of, SetCompact. cbn [fst].
  assert (Hsize : Z.shiftr (Z.lor m (Z.shiftl e 24)) 24 = e).
  { rewrite Z.shiftr_lor, Z.shiftr_shiftl_l, Z.sub_diag, Z.shiftl_0_r by lia.
    rewrite Z.shiftr_div_pow2, Z.div_small by lia. apply Z.lor_0_l. }
  assert (Hword : Z.land (Z.lor m (Z.shiftl e 24)) 0x007fffff = m).
  { change 0x007fffff with (Z.ones 23).
    rewrite Z.land_lor_distr_l, !Z.land_ones by lia.
    rewrite Z.shiftl_mul_pow2 by lia.
    replace (e * 2 ^ 24) with ((2 * e) * 2 ^ 23)
      by (change (2 ^ 24) with (2 * 2 ^ 23); lia).
    rewrite Z.mod_mul, Z.lor_0_r by lia.
    apply Z.mod_small; lia. }
  rewrite Hsize, Hword. reflexivity.
Qed.

(** Decoding what [GetCompact] packs never gives more than the value: the
    encoding loses low bits only. *)
Lemma target_of_GetCompact_le (x : Z) :
  0 <= x < modulus -> 0 <= target_of (GetCompact x) <= x.
Proof.
  intros [Hx0 Hx].
  destruct (Z.eq_dec x 0) as [->|Hnz]; [vm_compute; split; discriminate|].
  destruct (bytes_bounds x ltac:(lia)) as (Hs & Hlo & Hhi).
  unfold GetCompact.
  set (s := bytes x) in *.
  destruct (Z.leb_spec s 3) as [Hs3|Hs3].
  - (* at most three bytes: the mantissa is the value, shifted up *)
    set (k := 8 * (3 - s)).
    assert (Hk : 0 <= k) by (subst k; lia).
    pose proof (pow2_pos k Hk) as Hpk.
    assert (Hc : 0 <= Z.shiftl x k < 2 ^ 24).
    { rewrite Z.shiftl_mul_pow2 by lia. split; [nia|].
      replace (2 ^ 24) with (2 ^ (8 * s) * 2 ^ k)
        by (rewrite <- Z.pow_add_r by lia; f_equal; subst k; lia).
      nia. }
    rewrite (testbit23 _ Hc).
    destruct (Z.leb_spec (2 ^ 23) (Z.shiftl x k)) as [Hb|Hb].
    + assert (Hm : 0 <= Z.shiftr (Z.shiftl x k) 8 < 2 ^ 23).
      { rewrite Z.shiftr_div_pow2 by lia. split.
        - apply Z.div_pos; lia.
        - apply Z.div_lt_upper_bound; lia. }
      rewrite SetCompact_packed by (try exact Hm; lia).
      destruct (Z.leb_spec (s + 1) 3) as [Hs2|Hs2].
      * rewrite Z.shiftr_shiftr by lia.
        replace (8 + 8 * (3 - (s + 1))) with k by (subst k; lia).
        rewrite Z.shiftr_shiftl_l, Z.sub_diag, Z.shiftl_0_r by lia. lia.
      * assert (s = 3) by lia. subst k.
        replace (8 * (3 - s)) with 0 in * by lia.
        replace (8 * (s + 1 - 3)) with 8 by lia.
        rewrite Z.shiftl_0_r in *.
        pose proof (shiftr_shiftl_le x 8 Hx0 ltac:(lia)) as Hle.
        rewrite wrap_small by lia. exact Hle.
    + rewrite SetCompact_packed by lia.
      destruct (Z.leb_spec s 3) as [_|]; [|lia].
      fold k. rewrite Z.shiftr_shiftl_l, Z.sub_diag, Z.shiftl_0_r by lia. lia.
  - (* more than three bytes: the mantissa is the top of the value *)
    set (k := 8 * (s - 3)).
    assert (Hk : 0 <= k) by (subst k; lia).
    pose proof (pow2_pos k Hk) as Hpk.
    assert (Hc : 0 <= Z.shiftr x k < 2 ^ 24).
    { rewrite Z.shiftr_div_pow2 by lia. split.
      - apply Z.div_pos; lia.
      - apply Z.div_lt_upper_bound; [lia|].
        replace (2 ^ k * 2 ^ 24) with (2 ^ (8 * s))
          by (rewrite <- Z.pow_add_r by lia; f_equal; subst k; lia).
        exact Hhi. }
    rewrite (testbit23 _ Hc).
    destruct (Z.leb_spec (2 ^ 23) (Z.shiftr x k)) as [Hb|Hb].
    + assert (Hm : 0 <= Z.shiftr (Z.shiftr x k) 8 < 2 ^ 23).
      { rewrite (Z.shiftr_div_pow2 _ 8) by lia. split.
        - apply Z.div_pos; lia.
        - apply Z.div_lt_upper_bound; lia. }
      rewrite SetCompact_packed by (try exact Hm; lia).
      destruct (Z.leb_spec (s + 1) 3) as [|_]; [lia|].
      rewrite Z.shiftr_shiftr by lia.
      replace (8 * (s + 1 - 3)) with (k + 8) by (subst k; lia).
      pose proof (shiftr_shiftl_le x (k + 8) Hx0 ltac:(lia)) as Hle.
      rewrite wrap_small by lia. exact Hle.
    + rewrite SetCompact_packed by lia.
      destruct (Z.leb_spec s 3) as [|_]; [lia|].
      fold k.
      pose proof (shiftr_shiftl_le x k Hx0 Hk) as Hle.
      rewrite wrap_small by lia. exact Hle.
Qed.

Lemma target_of_nonneg (bits : Z) : 0 <= target_of bits.
Proof.
  unfold target_of, SetCompact. cbn [fst].
  assert (Hw : 0 <= Z.land bits 0x007fffff) by (apply Z.land_nonneg; right; lia).
  destruct (Z.shiftr bits 24 <=? 3).
  - apply Z.shiftr_nonneg; exact Hw.
  - unfold wrap. apply Z.mod_pos_bound. reflexivity.
Qed.

(** The encodings the examples use. *)
Example GetCompact_examples :
  GetCompact (0xffff * 2 ^ 208) = 0x1d00ffff
  /\ GetCompact (0x7fffff * 2 ^ 232) = 0x207fffff
  /\ GetCompact 0x80 = 0x02008000
  /\ GetCompact 0 = 0.
Proof. repeat split; reflexivity. Qed.

Example SetCompact_examples :
  SetCompact 0x1d00ffff = (0xffff * 2 ^ 208, false, false)
  /\ SetCompact 0x04923456 = (0x12345600, true, false)
  /\ SetCompact 0x23000001 = (0, false, true).
Proof. repeat split; reflexivity. Qed.

End CompactFacts.

(** ** pow.cpp *)

Module PowFacts.
Import Cxx arith_uint256 Chain Spec Examples.
Import CxxFacts CompactFacts.

Lemma params_ok_spec (params : Params) :
  params_ok params = true ->
  0 < nPowTargetSpacing params <= nPowTargetTimespan params
  /\ nPowTargetTimespan params * 4 <= INT64_MAX
  /\ 0 <= powLimit params < modulus.
Proof.
  unfold params_ok. rewrite !andb_true_iff, !Z.leb_le, !Z.ltb_lt. lia.
Qed.

(** The timespan after the two [if]s is the clamped one. *)
Lemma limit_step (a lo hi : Z) :
  (let a' := if a <? lo then lo else a in if a' >? hi then hi else a')
  = clamp a lo hi.
Proof.
  unfold clamp. cbv zeta.
  destruct (Z.ltb_spec a lo); [rewrite Z.max_r by lia | rewrite Z.max_l by lia].
  - destruct (Z.gtb_spec lo hi); lia.
  - destruct (Z.gtb_spec a hi); lia.
Qed.

(** With a positive timespan whose fourfold is an [int64_t], the retarget
    arithmetic is defined. *)
Lemma CalculateNextTarget_computed
    (last : CBlockIndex) (first : Z) (params : Params) :
  0 < nPowTargetTimespan params ->
  nPowTargetTimespan params * 4 <= INT64_MAX ->
  in_int64 (nTime last - first) = true ->
  Pow.CalculateNextTarget last first params =
    Some (computedTarget (nBits last) (nTime last - first) params,
          [Str " nActualTimespan = "; Num (nTime last - first);
           Str "  before bounds"; Endl]).
Proof.
  intros HT H4 Ha.
  apply in_int64_spec in Ha.
  unfold Pow.CalculateNextTarget, GetBlockTime.
  rewrite int64_defined by exact Ha. cbn [bind ret cout].
  rewrite int64_div_defined by ranges.
  cbn [bind ret].
  rewrite int64_defined by ranges.
  cbn [bind ret].
  set (T := nPowTargetTimespan params) in *.
  set (a := nTime last - first) in *.
  rewrite Z.quot_div_nonneg by lia.
  pose proof (limit_step a (T / 4) (T * 4)) as Hc. cbv zeta in Hc. rewrite Hc.
  unfold div, of_uint64, of_uint32.
  rewrite (Z.mod_small T) by ranges.
  destruct (Z.eqb_spec T 0); [lia|].
  cbn [bind ret app].
  unfold computedTarget, UintToArith256, mul, Decode, target_of.
  fold T. do 2 f_equal.
  destruct (Z.gtb_spec
              (wrap (fst (fst (SetCompact (nBits last)))
                     * (clamp a (T / 4) (T * 4) mod 2 ^ 32)) / T)
              (powLimit params)); lia.
Qed.

(** A clamped timespan that fits 32 bits enters the product whole. *)
Lemma computedTarget_narrow (bits a : Z) (params : Params) :
  0 < nPowTargetTimespan params ->
  nPowTargetTimespan params * 4 <= UINT32_MAX ->
  computedTarget bits a params = newTarget bits a params.
Proof.
  intros HT H4. unfold computedTarget, newTarget.
  set (T := nPowTargetTimespan params) in *.
  assert (Hlo : 0 <= T / 4) by (apply Z.div_pos; lia).
  assert (Hca : 0 <= clamp a (T / 4) (T * 4) <= T * 4) by (unfold clamp; lia).
  rewrite (Z.mod_small (clamp _ _ _)) by ranges. reflexivity.
Qed.

(** With a positive timespan whose fourfold fits 32 bits, the retarget
    arithmetic gives the [newTarget] of the specification. *)
Lemma CalculateNextTarget_defined
    (last : CBlockIndex) (first : Z) (params : Params) :
  0 < nPowTargetTimespan params ->
  nPowTargetTimespan params * 4 <= UINT32_MAX ->
  in_int64 (nTime last - first) = true ->
  Pow.CalculateNextTarget last first params =
    Some (newTarget (nBits last) (nTime last - first) params,
          [Str " nActualTimespan = "; Num (nTime last - first);
           Str "  before bounds"; Endl]).
Proof.
  intros HT H4 Ha.
  rewrite CalculateNextTarget_computed by (try assumption; ranges).
  rewrite computedTarget_narrow by assumption. reflexivity.
Qed.

Lemma CalculateNextWorkRequired_computed
    (last : CBlockIndex) (first : Z) (params : Params) :
  fPowNoRetargeting params = true
  \/ (0 < nPowTargetTimespan params
      /\ nPowTargetTimespan params * 4 <= INT64_MAX
      /\ in_int64 (nTime last - first) = true) ->
  Pow.CalculateNextWorkRequired last first params =
    Some (computedWork last first params, retarget_trace last first params).
Proof.
  unfold Pow.CalculateNextWorkRequired, computedWork, retarget_trace.
  destruct (fPowNoRetargeting params) eqn:Hno; [reflexivity|].
  intros [Habs|(HT & H4 & Ha)]; [discriminate|].
  rewrite CalculateNextTarget_computed by assumption.
  reflexivity.
Qed.

Lemma CalculateNextWorkRequired_run
    (last : CBlockIndex) (first : Z) (params : Params) :
  fPowNoRetargeting params = true
  \/ (0 < nPowTargetTimespan params
      /\ nPowTargetTimespan params * 4 <= UINT32_MAX
      /\ in_int64 (nTime last - first) = true) ->
  Pow.CalculateNextWorkRequired last first params =
    Some (CalculateNextWorkRequired_spec last first params,
          retarget_trace last first params).
Proof.
  unfold Pow.CalculateNextWorkRequired, CalculateNextWorkRequired_spec,
    retarget_trace.
  destruct (fPowNoRetargeting params) eqn:Hno; [reflexivity|].
  intros [Habs|(HT & H4 & Ha)]; [discriminate|].
  rewrite CalculateNextTarget_defined by assumption.
  reflexivity.
Qed.

(** Beyond 32 bits the two differ.  With a target timespan of 2^32 seconds,
    a window that took exactly as long enters the product as 0 and zeroes
    the target, where the quotient of the whole product leaves it as it
    was; a window one second shorter enters whole. *)
Example CalculateNextWorkRequired_long_window :
  let last := mkBlockIndex 2015 0xffffffff 0x1c00ffff None in
  option_map fst (Pow.CalculateNextWorkRequired last (-1) long_params) = Some 0
  /\ CalculateNextWorkRequired_spec last (-1) long_params = 0x1c00ffff
  /\ option_map fst (Pow.CalculateNextWorkRequired last 0 long_params)
     = Some 0x1c00fffe
  /\ CalculateNextWorkRequired_spec last 0 long_params = 0x1c00fffe.
Proof. vm_compute. repeat split. Qed.

Lemma computedTarget_bounds (bits a : Z) (params : Params) :
  0 < nPowTargetTimespan params -> 0 <= powLimit params ->
  0 <= computedTarget bits a params <= powLimit params.
Proof.
  intros HT Hpl. unfold computedTarget.
  assert (0 <= wrap (fst (fst (Decode bits)) *
                     (clamp a (nPowTargetTimespan params / 4)
                              (nPowTargetTimespan params * 4) mod 2 ^ 32))
               / nPowTargetTimespan params).
  { apply Z.div_pos; [|lia]. unfold wrap. apply Z.mod_pos_bound. reflexivity. }
  lia.
Qed.

Lemma newTarget_bounds (bits a : Z) (params : Params) :
  0 < nPowTargetTimespan params -> 0 <= powLimit params ->
  0 <= newTarget bits a params <= powLimit params.
Proof.
  intros HT Hpl. unfold newTarget.
  assert (0 <= wrap (fst (fst (Decode bits)) *
                     clamp a (nPowTargetTimespan params / 4)
                             (nPowTargetTimespan params * 4))
               / nPowTargetTimespan params).
  { apply Z.div_pos; [|lia]. unfold wrap. apply Z.mod_pos_bound. reflexivity. }
  lia.
Qed.

Lemma CheckProofOfWork_shown (hash nBits : Z) (params : Params) :
  Pow.CheckProofOfWork hash nBits params =
    shown nBits (CheckProofOfWork_spec hash nBits params).
Proof.
  unfold Pow.CheckProofOfWork, CheckProofOfWork_spec, Decode, UintToArith256.
  destruct (SetCompact nBits) as [[target negative] overflow].
  rewrite (Z.gtb_ltb target), (Z.gtb_ltb hash).
  destruct negative, overflow, (target =? 0), (powLimit params <? target),
    (target <? hash); reflexivity.
Qed.

Lemma shown_injective (bits : Z) (r r' : option PowError) :
  shown bits r = shown bits r' -> r = r'.
Proof.
  destruct r as [[|]|], r' as [[|]|]; cbn; intros H;
    try reflexivity; discriminate H.
Qed.

Lemma interval_defined (params : Params) :
  params_ok params = true ->
  DifficultyAdjustmentInterval params = Some (interval params, [])
  /\ 1 <= interval params <= INT64_MAX.
Proof.
  intros Hok. destruct (params_ok_spec params Hok) as ((Hs & HsT) & H4 & _).
  unfold DifficultyAdjustmentInterval, interval.
  rewrite int64_div_defined by ranges.
  rewrite Z.quot_div_nonneg by lia.
  split; [reflexivity|].
  split.
  - apply Z.div_le_lower_bound; lia.
  - apply Z.le_trans with (nPowTargetTimespan params); [|lia].
    apply Z.div_le_upper_bound; [lia|nia].
Qed.

Lemma ancestors_nonempty (idx : CBlockIndex) : ancestors idx <> [].
Proof. destruct idx as [h t b [p|]]; discriminate. Qed.

Lemma last_default {A : Type} (l : list A) (d d' : A) :
  l <> [] -> List.last l d = List.last l d'.
Proof.
  induction l as [|x [|y l] IH]; intros Hne; [contradiction|reflexivity|].
  change (List.last (y :: l) d = List.last (y :: l) d').
  apply IH. discriminate.
Qed.

(** The loop stops where the specification says. *)
Lemma last_non_special_stop (params : Params) (idx : CBlockIndex) :
  params_ok params = true -> index_ok idx = true ->
  Pow.last_non_special params (Encode (powLimit params)) idx
    = Some (walk_stop params idx, []).
Proof.
  intros Hok.
  destruct (interval_defined params Hok) as (Hint & Hi1 & Hi2).
  induction idx as [h t b|h t b prev IH] using chain_ind; intros Hidx.
  - cbn. unfold walk_stop. cbn.
    destruct (breaks_walk params (mkBlockIndex h t b None)); reflexivity.
  - cbn [index_ok pprev nHeight] in Hidx.
    apply andb_true_iff in Hidx as [Hfields Hprev].
    apply andb_true_iff in Hfields as [Hfields _].
    apply andb_true_iff in Hfields as [Hh _].
    apply in_int_spec in Hh.
    cbn [Pow.last_non_special pprev nHeight nBits].
    rewrite Hint. cbn [bind].
    rewrite int64_rem_defined
      by ranges.
    cbn [bind]. rewrite rem_zero_iff_mod by lia.
    unfold walk_stop. cbn [ancestors pprev find].
    unfold breaks_walk at 1. cbn [nHeight nBits].
    destruct ((h mod interval params =? 0)) eqn:Hm; cbn [negb andb orb].
    + reflexivity.
    + destruct (b =? Encode (powLimit params)) eqn:Hb; cbn [negb].
      * rewrite (IH Hprev). cbn [app]. unfold walk_stop.
        destruct (find (breaks_walk params) (ancestors prev)); [reflexivity|].
        do 2 f_equal.
        pose proof (ancestors_nonempty prev) as Hne.
        change (List.last (ancestors prev) prev =
                List.last (mkBlockIndex h t b (Some prev) :: ancestors prev)
                          (mkBlockIndex h t b (Some prev))).
        destruct (ancestors prev) as [|x l] eqn:Ha; [contradiction|].
        change (List.last (x :: l) prev
                = List.last (x :: l) (mkBlockIndex h t b (Some prev))).
        apply last_default. discriminate.
      * reflexivity.
Qed.

(** The path of [GetNextWorkRequired] off the retarget boundary. *)
Lemma GetNextWorkRequired_off_boundary
    (lastHeader : CBlockIndex) (pblock : CBlockHeader) (params : Params) :
  params_ok params = true ->
  index_ok lastHeader = true ->
  nHeight lastHeader < INT_MAX ->
  (nHeight lastHeader + 1) mod interval params <> 0 ->
  Pow.GetNextWorkRequired (Some lastHeader) pblock params =
    if fPowAllowMinDifficultyBlocks params then
      if hdr_nTime pblock >? nTime lastHeader + nPowTargetSpacing params * 2
      then Some (Encode (powLimit params), [])
      else Some (nBits (walk_stop params lastHeader), [])
    else Some (nBits lastHeader, []).
Proof.
  intros Hok Hidx Hmax Hoff.
  destruct (interval_defined params Hok) as (Hint & Hi1 & Hi2).
  destruct (params_ok_spec params Hok) as ((Hs & HsT) & H4 & _).
  pose proof Hidx as Hidx'.
  destruct lastHeader as [h t b prev].
  cbn [index_ok nHeight nTime nBits pprev] in Hidx', Hmax, Hoff |- *.
  apply andb_true_iff in Hidx' as [Hfields _].
  apply andb_true_iff in Hfields as [Hfields _].
  apply andb_true_iff in Hfields as [Hh Ht].
  apply in_int_spec in Hh. apply in_uint32_spec in Ht.
  unfold Pow.GetNextWorkRequired. cbn [nHeight nTime nBits].
  rewrite int_defined by ranges. cbn [bind].
  rewrite Hint. cbn [bind].
  rewrite int64_rem_defined by ranges.
  cbn [bind]. rewrite rem_zero_iff_mod by lia.
  destruct (Z.eqb_spec ((h + 1) mod interval params) 0) as [|_]; [contradiction|].
  cbn [negb].
  destruct (fPowAllowMinDifficultyBlocks params); [|reflexivity].
  rewrite int64_defined by ranges. cbn [bind].
  unfold GetBlockTime, HeaderBlockTime. cbn [nTime].
  rewrite int64_defined by ranges. cbn [bind].
  destruct (hdr_nTime pblock >? t + nPowTargetSpacing params * 2);
    [reflexivity|].
  unfold UintToArith256.
  change (GetCompact (powLimit params)) with (Encode (powLimit params)).
  rewrite (last_non_special_stop params _ Hok Hidx). reflexivity.
Qed.

(** Runs on the example chains. *)
Example GetNextWorkRequired_examples :
  Pow.GetNextWorkRequired (Some b6) (mkBlockHeader 9600) test4_params
    = Some (0x1c00ffff, [])
  /\ Pow.GetNextWorkRequired (Some b5) (mkBlockHeader 9600) test4_params
    = Some (0x1d00ffff, [])
  /\ Pow.GetNextWorkRequired None (mkBlockHeader 9600) test4_params = None
  /\ Pow.GetNextWorkRequired (Some (tip 0x1d00ffff)) (mkBlockHeader 1500000600)
       main_params = None.
Proof. repeat split; reflexivity. Qed.

(** *** CheckProofOfWork *)

(** C2. For every hash, compact bits and consensus parameters,
    [CheckProofOfWork] succeeds if and only if decoding the bits gives
    negative = false, overflow = false and a target that is nonzero and at
    most [powLimit], and the hash, read as an unsigned 256-bit integer, is
    at most the target.  With a target in range, a hash equal to the target
    succeeds and a hash of target + 1 fails for insufficient work.  The code
    returns a [bool]; it shows the outcome of the specification by that
    boolean and the line it writes ([shown]), and the three outcomes are
    shown differently, so a failure for a bad target is told apart from a
    failure for insufficient work. *)
Theorem CheckProofOfWork_outcome (hash nBits : Z) (params : Params) :
  Pow.CheckProofOfWork hash nBits params =
    shown nBits (CheckProofOfWork_spec hash nBits params)
  /\ (returns (Pow.CheckProofOfWork hash nBits params) true <->
      snd (fst (Decode nBits)) = false /\ snd (Decode nBits) = false
      /\ fst (fst (Decode nBits)) <> 0
      /\ fst (fst (Decode nBits)) <= powLimit params
      /\ hash <= fst (fst (Decode nBits)))
  /\ (snd (fst (Decode nBits)) = false -> snd (Decode nBits) = false ->
      fst (fst (Decode nBits)) <> 0 ->
      fst (fst (Decode nBits)) <= powLimit params ->
      Pow.CheckProofOfWork (fst (fst (Decode nBits))) nBits params
        = Some (true, [])
      /\ Pow.CheckProofOfWork (fst (fst (Decode nBits)) + 1) nBits params
        = shown nBits (Some InsufficientWork))
  /\ (forall r r' : option PowError,
        shown nBits r = shown nBits r' -> r = r').
Proof.
  split; [apply CheckProofOfWork_shown|].
  split; [|split; [|apply shown_injective]].
  - rewrite CheckProofOfWork_shown.
    unfold returns, CheckProofOfWork_spec.
    destruct (Decode nBits) as [[target negative] overflow]. cbn [fst snd].
    destruct negative, overflow; cbn [orb];
      try (split; [intros [o Ho]; discriminate Ho
                  | intros (? & ? & _); discriminate]).
    destruct (Z.eqb_spec target 0) as [Hz|Hz]; cbn [orb].
    { split; [intros [o Ho]; discriminate Ho
             | intros (_ & _ & ? & _); contradiction]. }
    destruct (Z.ltb_spec (powLimit params) target) as [Hl|Hl].
    { split; [intros [o Ho]; discriminate Ho
             | intros (_ & _ & _ & ? & _); lia]. }
    destruct (Z.ltb_spec target hash) as [Hh|Hh].
    { split; [intros [o Ho]; discriminate Ho
             | intros (_ & _ & _ & _ & ?); lia]. }
    split; [intros _; repeat split; assumption
           | intros _; eexists; reflexivity].
  - rewrite !CheckProofOfWork_shown.
    unfold CheckProofOfWork_spec.
    destruct (Decode nBits) as [[target negative] overflow]. cbn [fst snd].
    intros -> -> Hnz Hle.
    destruct (Z.eqb_spec target 0) as [|_]; [contradiction|].
    destruct (Z.ltb_spec (powLimit params) target) as [|_]; [lia|].
    cbn [orb]. rewrite Z.ltb_irrefl.
    destruct (Z.ltb_spec target (target + 1)); [|lia].
    split; reflexivity.
Qed.

(** C2, on the limit 0x1d00ffff: the target itself passes, the next value
    fails for insufficient work, and a target above the limit fails for its
    range. *)
Lemma CheckProofOfWork_outcome_witness :
  Pow.CheckProofOfWork (0xffff * 2 ^ 208) 0x1d00ffff main_params
    = Some (true, [])
  /\ Pow.CheckProofOfWork (0xffff * 2 ^ 208 + 1) 0x1d00ffff main_params
     = Some (false, Pow.work_diagnostic 0x1d00ffff)
  /\ Pow.CheckProofOfWork 0 0x1e00ffff main_params
     = Some (false, Pow.range_diagnostic 0x1e00ffff).
Proof.
  destruct (CheckProofOfWork_outcome 0 0x1d00ffff main_params)
    as (_ & _ & Hedge & _).
  destruct Hedge as [Heq Hnext];
    [reflexivity | reflexivity | vm_compute; discriminate
    | vm_compute; discriminate |].
  split; [exact Heq|]. split; [exact Hnext|].
  destruct (CheckProofOfWork_outcome 0 0x1e00ffff main_params) as (Hs & _).
  exact Hs.
Defined.

(** *** CalculateNextWorkRequired *)



(** C4 fails as stated: without retargeting the bits of the last header
    come back unchanged, here 0x1e00ffff, which decode to 256 times the
    limit 0x1d00ffff. *)
Lemma CalculateNextWorkRequired_above_limit :
  fPowNoRetargeting fixed_params = true
  /\ Pow.CalculateNextWorkRequired (tip 0x1e00ffff) 1498790400 fixed_params
     = Some (0x1e00ffff, [])
  /\ powLimit fixed_params < target_of 0x1e00ffff.
Proof. repeat split; reflexivity. Qed.

(** C4, amended.  For every last header, first-block time and consensus
    parameters with noRetargeting = false, the compact bits that
    [CalculateNextWorkRequired] returns decode to a target that does not
    exceed [powLimit]; with noRetargeting = true it returns
    lastHeader.bits unchanged, so that its result is within [powLimit] only
    if lastHeader.bits already are. *)
Theorem CalculateNextWorkRequired_within_limit
    (lastHeader : CBlockIndex) (firstBlockTime : Z) (params : Params) :
  params_ok params = true ->
  in_int64 (nTime lastHeader - firstBlockTime) = true ->
  exists bits,
    returns (Pow.CalculateNextWorkRequired lastHeader firstBlockTime params) bits
    /\ (fPowNoRetargeting params = false -> target_of bits <= powLimit params)
    /\ (fPowNoRetargeting params = true -> bits = nBits lastHeader).
Proof.
  intros Hok Ha.
  destruct (params_ok_spec params Hok) as (Hsp & H4 & Hpl).
  exists (computedWork lastHeader firstBlockTime params).
  split; [|split].
  - eexists. apply CalculateNextWorkRequired_computed. right.
    repeat split; try assumption; lia.
  - intros Hno. unfold computedWork, Encode. rewrite Hno.
    pose proof (computedTarget_bounds (nBits lastHeader)
                  (nTime lastHeader - firstBlockTime) params) as Ht.
    set (t := computedTarget _ _ _) in *.
    pose proof (target_of_GetCompact_le t ltac:(lia)). lia.
  - intros Hno. unfold computedWork. rewrite Hno. reflexivity.
Qed.

(** C4 amended, on a window that took 2,000,000 seconds at the limit. *)
Lemma CalculateNextWorkRequired_within_limit_witness :
  exists bits,
    returns (Pow.CalculateNextWorkRequired (tip 0x1d00ffff) 1498000000
               main_params) bits
    /\ target_of bits <= powLimit main_params.
Proof.
  destruct (CalculateNextWorkRequired_within_limit
              (tip 0x1d00ffff) 1498000000 main_params)
    as (bits & Hr & Hb & _); [reflexivity | reflexivity |].
  exists bits. split; [exact Hr | apply Hb; reflexivity].
Defined.

(** C7 fails as stated.  With the limit 0x1d00ffff and a last header at the
    limit, the timespans 1209600 < 1209601, both strictly between 302400
    and 4838400, give the same new target (the cap at [powLimit]).  With
    the limit 0x207fffff and a last header at that limit, the timespans
    302402 < 302403 give a smaller new target for the larger timespan (the
    product exceeds 256 bits). *)
Lemma CalculateNextTarget_not_strict :
  (1209600 / 4 < 1209600 /\ 1209600 < 1209601 /\ 1209601 < 1209600 * 4
   /\ exists t,
       returns (Pow.CalculateNextTarget (tip 0x1d00ffff)
                  (1500000000 - 1209600) main_params) t
       /\ returns (Pow.CalculateNextTarget (tip 0x1d00ffff)
                     (1500000000 - 1209601) main_params) t)
  /\ (1209600 / 4 < 302402 /\ 302402 < 302403 /\ 302403 < 1209600 * 4
      /\ exists t1 t2,
          returns (Pow.CalculateNextTarget (tip 0x207fffff)
                     (1500000000 - 302402) wide_params) t1
          /\ returns (Pow.CalculateNextTarget (tip 0x207fffff)
                        (1500000000 - 302403) wide_params) t2
          /\ t2 < t1).
Proof.
  split.
  - repeat split; try reflexivity.
    exists (0xffff * 2 ^ 208). split; eexists; vm_compute; reflexivity.
  - repeat split; try reflexivity.
    eexists; eexists. split; [|split].
    + eexists; vm_compute; reflexivity.
    + eexists; vm_compute; reflexivity.
    + reflexivity.
Qed.

(** C7, amended.  Fixing lastHeader.bits, targetTimespan and powLimit, and
    taking two actual timespans a1 <= a2 within the clamp bounds
    [targetTimespan/4, targetTimespan*4], where four times the target
    timespan fits 32 bits and the old target times a2 fits 256 bits, the new
    target computed from a2 is greater than or equal to the one computed
    from a1, and [CalculateNextWorkRequired] returns the encodings of these
    two targets. *)
Theorem CalculateNextTarget_monotone
    (lastHeader : CBlockIndex) (first1 first2 : Z) (params : Params) :
  0 < nPowTargetTimespan params ->
  nPowTargetTimespan params * 4 <= UINT32_MAX ->
  nPowTargetTimespan params / 4 <= nTime lastHeader - first1 ->
  nTime lastHeader - first1 <= nTime lastHeader - first2 ->
  nTime lastHeader - first2 <= nPowTargetTimespan params * 4 ->
  target_of (nBits lastHeader) * (nTime lastHeader - first2) < modulus ->
  exists t1 t2,
    returns (Pow.CalculateNextTarget lastHeader first1 params) t1
    /\ returns (Pow.CalculateNextTarget lastHeader first2 params) t2
    /\ t1 <= t2
    /\ (fPowNoRetargeting params = false ->
        returns (Pow.CalculateNextWorkRequired lastHeader first1 params)
                (Encode t1)
        /\ returns (Pow.CalculateNextWorkRequired lastHeader first2 params)
                   (Encode t2)).
Proof.
  intros HT H4 Hlo H12 Hhi Hfit.
  set (T := nPowTargetTimespan params) in *.
  set (a1 := nTime lastHeader - first1) in *.
  set (a2 := nTime lastHeader - first2) in *.
  assert (H0 : 0 <= T / 4) by (apply Z.div_pos; lia).
  assert (Hr1 : in_int64 a1 = true)
    by (apply in_int64_spec; ranges).
  assert (Hr2 : in_int64 a2 = true)
    by (apply in_int64_spec; ranges).
  exists (newTarget (nBits lastHeader) a1 params),
         (newTarget (nBits lastHeader) a2 params).
  split; [|split; [|split]].
  - eexists. apply CalculateNextTarget_defined; assumption.
  - eexists. apply CalculateNextTarget_defined; assumption.
  - unfold newTarget, Decode. fold T. fold (target_of (nBits lastHeader)).
    pose proof (target_of_nonneg (nBits lastHeader)) as Htg.
    set (tg := target_of (nBits lastHeader)) in *.
    assert (Hc1 : clamp a1 (T / 4) (T * 4) = a1) by (unfold clamp; lia).
    assert (Hc2 : clamp a2 (T / 4) (T * 4) = a2) by (unfold clamp; lia).
    rewrite Hc1, Hc2.
    rewrite !wrap_small by nia.
    apply Z.min_le_compat_l.
    apply Z.div_le_mono; [lia|nia].
  - intros Hno.
    split; eexists; rewrite CalculateNextWorkRequired_run
      by (right; repeat split; assumption);
      unfold CalculateNextWorkRequired_spec; rewrite Hno; reflexivity.
Qed.

(** C7 amended, on a header 256 times harder than the limit: a window of
    one week against a window of two weeks. *)
Lemma CalculateNextTarget_monotone_witness :
  exists t1 t2,
    returns (Pow.CalculateNextTarget (tip 0x1c00ffff) (1500000000 - 604800)
               main_params) t1
    /\ returns (Pow.CalculateNextTarget (tip 0x1c00ffff) (1500000000 - 1209600)
                  main_params) t2
    /\ t1 <= t2.
Proof.
  destruct (CalculateNextTarget_monotone (tip 0x1c00ffff) (1500000000 - 604800)
              (1500000000 - 1209600) main_params)
    as (t1 & t2 & H1 & H2 & Hle & _); try (vm_compute; congruence).
  exists t1, t2. repeat split; assumption.
Defined.

(** *** GetNextWorkRequired *)

(** C5 fails as stated.  With windows of two blocks, minimum-difficulty
    blocks allowed and a candidate 8400 seconds after a last header of
    height 1, the next block is on a retarget boundary and the function
    retargets to 0x1b7fff80, not to Encode(powLimit) = 0x1d00ffff. *)
Lemma GetNextWorkRequired_boundary_retargets :
  fPowAllowMinDifficultyBlocks test_params = true
  /\ hdr_nTime (mkBlockHeader 10000)
       > nTime block1 + 2 * nPowTargetSpacing test_params
  /\ (nHeight block1 + 1) mod interval test_params = 0
  /\ Pow.GetNextWorkRequired (Some block1) (mkBlockHeader 10000) test_params
     = Some (0x1b7fff80,
             [Str " nActualTimespan = "; Num 600; Str "  before bounds"; Endl])
  /\ Encode (powLimit test_params) = 0x1d00ffff
  /\ ~ returns (Pow.GetNextWorkRequired (Some block1) (mkBlockHeader 10000)
                  test_params) (Encode (powLimit test_params)).
Proof.
  split; [reflexivity|]. split; [reflexivity|]. split; [reflexivity|].
  split; [reflexivity|]. split; [reflexivity|].
  intros [o Ho]. vm_compute in Ho. discriminate Ho.
Qed.

(** C5, amended.  For every last header such that lastHeader.height + 1 is
    not a multiple of the retarget interval and every candidate timestamp,
    when allowMinDifficultyBlocks is true and the candidate timestamp is
    more than 2*targetSpacing past the last header's timestamp,
    [GetNextWorkRequired] returns Encode(powLimit), for every value of
    lastHeader.bits. *)
Theorem GetNextWorkRequired_min_difficulty
    (lastHeader : CBlockIndex) (pblock : CBlockHeader) (params : Params) :
  params_ok params = true ->
  index_ok lastHeader = true ->
  nHeight lastHeader < INT_MAX ->
  (nHeight lastHeader + 1) mod interval params <> 0 ->
  fPowAllowMinDifficultyBlocks params = true ->
  hdr_nTime pblock > nTime lastHeader + 2 * nPowTargetSpacing params ->
  Pow.GetNextWorkRequired (Some lastHeader) pblock params
    = Some (Encode (powLimit params), []).
Proof.
  intros Hok Hidx Hmax Hoff Hallow Hlate.
  rewrite GetNextWorkRequired_off_boundary by assumption.
  rewrite Hallow.
  destruct (Z.gtb_spec (hdr_nTime pblock)
              (nTime lastHeader + nPowTargetSpacing params * 2));
    [reflexivity|lia].
Qed.

(** C5 amended, one second past the allowance, after a block of height 6
    with windows of four blocks. *)
Lemma GetNextWorkRequired_min_difficulty_witness :
  Pow.GetNextWorkRequired (Some b6) (mkBlockHeader 10201) test4_params
    = Some (0x1d00ffff, []).
Proof.
  apply (GetNextWorkRequired_min_difficulty b6 (mkBlockHeader 10201)
           test4_params); vm_compute; congruence.
Defined.

(** C6. For every chain and last header such that lastHeader.height + 1 is
    not a multiple of the retarget interval, when allowMinDifficultyBlocks
    is true and the candidate timestamp is not more than 2*targetSpacing
    past the last header's timestamp, [GetNextWorkRequired] returns the
    stored bits of the first block, walking back from lastHeader, whose
    height is a multiple of the interval or whose bits differ from
    Encode(powLimit), or of the oldest block if none ends the walk
    earlier. *)
Theorem GetNextWorkRequired_walks_back
    (lastHeader : CBlockIndex) (pblock : CBlockHeader) (params : Params) :
  params_ok params = true ->
  index_ok lastHeader = true ->
  nHeight lastHeader < INT_MAX ->
  (nHeight lastHeader + 1) mod interval params <> 0 ->
  fPowAllowMinDifficultyBlocks params = true ->
  hdr_nTime pblock <= nTime lastHeader + 2 * nPowTargetSpacing params ->
  Pow.GetNextWorkRequired (Some lastHeader) pblock params
    = Some (nBits (walk_stop params lastHeader), []).
Proof.
  intros Hok Hidx Hmax Hoff Hallow Hlate.
  rewrite GetNextWorkRequired_off_boundary by assumption.
  rewrite Hallow.
  destruct (Z.gtb_spec (hdr_nTime pblock)
              (nTime lastHeader + nPowTargetSpacing params * 2));
    [lia|reflexivity].
Qed.

(** C6, at the end of the allowance: two minimum-difficulty blocks are
    skipped and the bits of the boundary block of height 4 come back. *)
Lemma GetNextWorkRequired_walks_back_witness :
  Pow.GetNextWorkRequired (Some b6) (mkBlockHeader 10200) test4_params
    = Some (0x1c00ffff, []).
Proof.
  apply (GetNextWorkRequired_walks_back b6 (mkBlockHeader 10200) test4_params);
    vm_compute; congruence.
Defined.

End PowFacts.

(** ** hash.h *)

Module RouletteFacts.
Import Sph Roulette.

Section WithLibrary.

Variable sph : library.

Lemma set_ctx_same (a : algo) (c : context (sph a)) (ctx : locals sph) :
  set_ctx sph a c ctx a = c.
Proof. destruct a; reflexivity. Qed.

(** A context is initialised before it is used: the bytes written to
    [hash] do not depend on what the contexts held. *)
Lemma init_update_close_hash (a : algo) (data : list byte) (ctx : locals sph) :
  snd (init_update_close sph a data ctx) = digest (sph a) data.
Proof.
  unfold init_update_close, digest.
  rewrite !set_ctx_same.
  destruct (close (sph a) (absorb (sph a) (init (sph a)) data)); reflexivity.
Qed.

Lemma selector_lt (d : digest64) : (selector d < 16)%nat.
Proof.
  unfold selector.
  assert (H : (N.land (Byte.to_N (Vector.hd d)) 0x0F < 16)%N).
  { change 0x0F%N with (N.ones 4). rewrite N.land_ones.
    apply N.mod_lt. discriminate. }
  lia.
Qed.

(** The [switch] picks the primitive that the table has at the selector. *)
Lemma round_hash (ctx : locals sph) (hash : digest64) :
  snd (round sph (ctx, hash)) = reference_round sph hash.
Proof.
  pose proof (selector_lt hash) as Hlt.
  unfold round, reference_round, selector in *.
  destruct (N.land (Byte.to_N (Vector.hd hash)) 15) as [|p].
  - apply init_update_close_hash.
  - do 4 (try destruct p as [p|p|]);
      try apply init_update_close_hash; exfalso; lia.
Qed.

Lemma iter_round_hash (n : nat) (st : locals sph * digest64) :
  snd (Nat.iter n (round sph) st) = rounds sph n (snd st).
Proof.
  induction n as [|n IH]; [reflexivity|].
  unfold rounds in *. rewrite !Nat.iter_succ, <- IH.
  destruct (Nat.iter n (round sph) st) as [ctx hash].
  apply round_hash.
Qed.

(** On a range that has a first element the code computes the reference
    value, whatever the local contexts held. *)
Lemma RouletteHash_nonempty (ctx : locals sph) (input : list byte) :
  input <> [] ->
  RouletteHash sph ctx input = Some (RouletteHash_reference sph input).
Proof.
  intros Hne. unfold RouletteHash, RouletteHash_reference.
  destruct input as [|b input]; [contradiction|].
  cbn [first_element]. rewrite firstn_all.
  pose proof (iter_round_hash 16
                (init_update_close sph sha512 (b :: input) ctx)) as Hit.
  rewrite init_update_close_hash in Hit.
  destruct (Nat.iter 16 (round sph) _) as [ctx' hash].
  cbn [snd] in Hit. rewrite Hit. reflexivity.
Qed.

(** The value is a function of the first SHA-512 digest. *)
Lemma RouletteHash_reference_of_digest (input : list byte) :
  RouletteHash_reference sph input =
    firstn 32 (Vector.to_list (rounds sph 16 (digest (sph sha512) input))).
Proof. reflexivity. Qed.

End WithLibrary.

(** Runs with the small library. *)
Example toy_runs :
  option_map (firstn 4) (RouletteHash toy toy_locals [x42; x54; x43])
    = Some [xa8; x49; x6e; x27]
  /\ option_map (@List.length byte) (RouletteHash toy toy_locals [x42; x54; x43])
    = Some 32%nat
  /\ RouletteHash toy toy_locals [] = None
  /\ digest (toy sha512) [x00; x03] = digest (toy sha512) [x01; x00]
  /\ List.map (fun n => selector (rounds toy n (digest (toy sha512) [x42; x54; x43])))
       [0; 1; 2; 3]%nat = [8; 15; 6; 13]%nat.
Proof. repeat split; vm_compute; reflexivity. Qed.

(** C1. For every non-empty input byte sequence, [RouletteHash] equals the
    reference definition: the running 64-byte digest starts as SHA-512 of
    the input; each of exactly 16 rounds takes the selector (first byte of
    the digest) & 0x0F, applies the primitive at that index of the table
    0=BLAKE-512 .. 15=Whirlpool-512 to the whole digest and replaces the
    digest by the result; the value returned is the first 32 bytes of the
    digest after the 16th round. *)
Theorem RouletteHash_is_reference
    (sph : library) (ctx : locals sph) (input : list byte) :
  input <> [] ->
  RouletteHash sph ctx input = Some (RouletteHash_reference sph input).
Proof. apply RouletteHash_nonempty. Qed.

(** C1, on the three bytes of "BTC". *)
Lemma RouletteHash_is_reference_witness :
  RouletteHash toy toy_locals [x42; x54; x43]
    = Some (RouletteHash_reference toy [x42; x54; x43]).
Proof.
  apply (RouletteHash_is_reference toy toy_locals [x42; x54; x43]).
  discriminate.
Defined.

(** C8. On the empty range [RouletteHash] has no defined result: it forms
    [&pbegin[0]] where there is no first element.  Its sibling [Hash] tests
    [pbegin == pend], passes [pblank] instead, and is defined there. *)
Theorem RouletteHash_empty_range
    (sph : library) (ctx : locals sph) (SHA256 : list byte -> list byte) :
  RouletteHash sph ctx [] = None
  /\ Hash SHA256 [] = Some (SHA256 (firstn 32 (SHA256 []))).
Proof. split; reflexivity. Qed.

(** C9. [RouletteHash] is deterministic: its result depends on no state
    outside its input, not on what its local contexts held on entry either,
    so two calls on equal input byte sequences return equal values. *)
Theorem RouletteHash_deterministic
    (sph : library) (ctx ctx' : locals sph) (x y : list byte) :
  x = y -> RouletteHash sph ctx x = RouletteHash sph ctx' y.
Proof.
  intros <-. destruct x as [|b x]; [reflexivity|].
  rewrite !RouletteHash_nonempty by discriminate. reflexivity.
Qed.

(** C9, on "BTC" with two different contents of the local contexts. *)
Lemma RouletteHash_deterministic_witness :
  RouletteHash toy toy_locals [x42; x54; x43]
    = RouletteHash toy (fun _ => []) [x42; x54; x43].
Proof.
  apply (RouletteHash_deterministic toy toy_locals (fun _ => [])). reflexivity.
Defined.

(** C10. [RouletteHash] factors through the first SHA-512: the input bytes
    are read only to compute the round-0 digest, so two inputs with the same
    SHA-512 digest have the same [RouletteHash].  The two ranges are both
    empty or both not: the call on an empty range has no result to
    compare. *)
Theorem RouletteHash_factors_through_sha512
    (sph : library) (ctx ctx' : locals sph) (x y : list byte) :
  is_empty x = is_empty y ->
  digest (sph sha512) x = digest (sph sha512) y ->
  RouletteHash sph ctx x = RouletteHash sph ctx' y.
Proof.
  intros Hxy Heq.
  destruct x as [|a x], y as [|b y]; try discriminate Hxy; [reflexivity|].
  rewrite !RouletteHash_nonempty by discriminate.
  rewrite !RouletteHash_reference_of_digest, Heq. reflexivity.
Qed.

(** C10, on two inputs that the small library's SHA-512 stand-in maps to
    one digest. *)
Lemma RouletteHash_factors_through_sha512_witness :
  RouletteHash toy toy_locals [x00; x03]
    = RouletteHash toy toy_locals [x01; x00].
Proof.
  apply (RouletteHash_factors_through_sha512 toy toy_locals toy_locals
           [x00; x03] [x01; x00]); reflexivity.
Defined.

End RouletteFacts.

(** ** pow.cpp on whole chains *)

Module PowChainFacts.
Import Cxx arith_uint256 Chain Spec Examples ChainShape.
Import CxxFacts CompactFacts PowFacts.

Lemma to_int_small (z : Z) : INT_MIN <= z <= INT_MAX -> to_int z = z.
Proof.
  intros H. unfold to_int. rewrite Z.mod_small by ranges. lia.
Qed.

Lemma last_in {A : Type} (l : list A) (d : A) : l <> [] -> In (List.last l d) l.
Proof.
  induction l as [|x [|y l] IH]; intros Hne; [contradiction|left; reflexivity|].
  right. apply IH. discriminate.
Qed.

Lemma oldest_link (h t b : Z) (prev : CBlockIndex) :
  oldest (mkBlockIndex h t b (Some prev)) = oldest prev.
Proof.
  unfold oldest. cbn [ancestors pprev].
  pose proof (ancestors_nonempty prev) as Hne.
  destruct (ancestors prev) as [|x l] eqn:Ha; [contradiction|].
  change (List.last (x :: l) (mkBlockIndex h t b (Some prev))
          = List.last (x :: l) prev).
  apply last_default. discriminate.
Qed.

Lemma oldest_in (idx : CBlockIndex) : In (oldest idx) (ancestors idx).
Proof. apply last_in, ancestors_nonempty. Qed.

Lemma self_in (idx : CBlockIndex) : In idx (ancestors idx).
Proof. destruct idx as [h t b [p|]]; left; reflexivity. Qed.

(** Where the walk stops is a block of the chain. *)
Lemma walk_stop_in (params : Params) (idx : CBlockIndex) :
  In (walk_stop params idx) (ancestors idx).
Proof.
  unfold walk_stop.
  destruct (find (breaks_walk params) (ancestors idx)) as [b|] eqn:Hf.
  - apply find_some in Hf. apply Hf.
  - apply oldest_in.
Qed.

(** A block that ends the walk at once. *)
Lemma walk_stop_self (params : Params) (idx : CBlockIndex) :
  breaks_walk params idx = true -> walk_stop params idx = idx.
Proof.
  intros Hb. unfold walk_stop.
  destruct idx as [h t b [p|]]; cbn [ancestors pprev find]; rewrite Hb;
    reflexivity.
Qed.

Lemma index_ok_in (idx a : CBlockIndex) :
  index_ok idx = true -> In a (ancestors idx) ->
  in_int (nHeight a) = true /\ in_uint32 (nTime a) = true.
Proof.
  induction idx as [h t b|h t b prev IH] using chain_ind; intros Hok Hin;
    cbn [index_ok pprev nHeight nTime nBits] in Hok;
    rewrite !andb_true_iff in Hok; destruct Hok as (((Hh & Ht) & Hb) & Hp).
  - destruct Hin as [<-|[]]. split; assumption.
  - cbn [ancestors pprev] in Hin. destruct Hin as [<-|Hin].
    + split; assumption.
    + apply IH; assumption.
Qed.

Lemma linked_oldest_le (idx : CBlockIndex) :
  linked idx = true -> nHeight (oldest idx) <= nHeight idx.
Proof.
  induction idx as [h t b|h t b prev IH] using chain_ind; intros Hl.
  - cbn. lia.
  - cbn [linked pprev nHeight] in Hl. apply andb_true_iff in Hl as [Hh Hl].
    apply Z.eqb_eq in Hh. rewrite oldest_link. cbn [nHeight].
    specialize (IH Hl). lia.
Qed.

(** On a linked chain every height from the oldest block up is found. *)
Lemma GetAncestor_linked (idx : CBlockIndex) (height : Z) :
  linked idx = true ->
  0 <= height -> nHeight (oldest idx) <= height <= nHeight idx ->
  exists a, GetAncestor idx height = Some a
            /\ In a (ancestors idx) /\ nHeight a = height.
Proof.
  induction idx as [h t b|h t b prev IH] using chain_ind;
    intros Hl H0 Hrange.
  - cbn in Hrange. assert (height = h) as -> by lia.
    exists (mkBlockIndex h t b None). cbn.
    destruct (Z.gtb_spec h h); [lia|]. destruct (Z.ltb_spec h 0); [lia|].
    cbn. rewrite Z.eqb_refl. repeat split. left; reflexivity.
  - cbn [linked pprev nHeight] in Hl. apply andb_true_iff in Hl as [Hh Hl].
    apply Z.eqb_eq in Hh. rewrite oldest_link in Hrange.
    cbn [nHeight] in Hrange.
    cbn [GetAncestor nHeight pprev].
    destruct (Z.gtb_spec height h); [lia|]. destruct (Z.ltb_spec height 0); [lia|].
    cbn [orb].
    destruct (Z.eqb_spec h height) as [->|Hne].
    + eexists. split; [reflexivity|]. split; [left; reflexivity|reflexivity].
    + destruct (IH Hl H0 ltac:(lia)) as (a & Hg & Hin & Ha).
      exists a. split; [exact Hg|]. split; [right; exact Hin|exact Ha].
Qed.

(** A height below every block of the chain is not found. *)
Lemma GetAncestor_below (idx : CBlockIndex) (height : Z) :
  (forall a, In a (ancestors idx) -> height < nHeight a) ->
  GetAncestor idx height = None.
Proof.
  induction idx as [h t b|h t b prev IH] using chain_ind; intros Hall.
  - specialize (Hall _ (self_in _)). cbn in *.
    destruct ((height >? h) || (height <? 0)); [reflexivity|].
    destruct (Z.eqb_spec h height); [lia|reflexivity].
  - pose proof (Hall _ (self_in _)) as Hs. cbn [nHeight] in Hs.
    cbn [GetAncestor nHeight pprev].
    destruct ((height >? h) || (height <? 0)); [reflexivity|].
    destruct (Z.eqb_spec h height); [lia|].
    apply IH. intros a Ha. apply Hall. right. exact Ha.
Qed.

(** The path of [GetNextWorkRequired] on the retarget boundary. *)
Lemma GetNextWorkRequired_on_boundary
    (lastHeader : CBlockIndex) (pblock : CBlockHeader) (params : Params) :
  params_ok params = true ->
  index_ok lastHeader = true ->
  0 <= nHeight lastHeader < INT_MAX ->
  (nHeight lastHeader + 1) mod interval params = 0 ->
  0 <= nHeight lastHeader - (interval params - 1)
  /\ Pow.GetNextWorkRequired (Some lastHeader) pblock params =
       match GetAncestor lastHeader
               (nHeight lastHeader - (interval params - 1)) with
       | None => None
       | Some pindexFirst =>
           Pow.CalculateNextWorkRequired lastHeader (nTime pindexFirst) params
       end.
Proof.
  intros Hok Hidx Hh Hon.
  destruct (interval_defined params Hok) as (Hint & Hi1 & Hi2).
  assert (Hle : interval params <= nHeight lastHeader + 1).
  { apply Z.mod_divide in Hon; [|lia]. apply Z.divide_pos_le in Hon; lia. }
  split; [lia|].
  unfold Pow.GetNextWorkRequired.
  rewrite int_defined by ranges. cbn [bind].
  rewrite Hint. cbn [bind].
  rewrite int64_rem_defined by ranges.
  cbn [bind]. rewrite rem_zero_iff_mod by lia.
  rewrite Hon. cbn [Z.eqb negb].
  rewrite int64_defined by ranges. cbn [bind].
  rewrite int64_defined by ranges. cbn [bind].
  rewrite to_int_small by ranges.
  destruct (Z.geb_spec (nHeight lastHeader - (interval params - 1)) 0); [|lia].
  cbn [assert ret bind].
  destruct (GetAncestor lastHeader (nHeight lastHeader - (interval params - 1)))
    as [first|]; [|reflexivity].
  unfold GetBlockTime.
  destruct (Pow.CalculateNextWorkRequired lastHeader (nTime first) params)
    as [[bits o]|]; reflexivity.
Qed.


Lemma targets_within_in (params : Params) (idx a : CBlockIndex) :
  targets_within params idx = true -> In a (ancestors idx) ->
  target_of (nBits a) <= powLimit params.
Proof.
  unfold targets_within. rewrite forallb_forall. intros Hall Hin.
  apply Z.leb_le. apply (Hall a Hin).
Qed.

Lemma Encode_within (t limit : Z) :
  0 <= t <= limit -> limit < modulus -> 0 <= target_of (Encode t) <= limit.
Proof.
  intros Ht Hl. unfold Encode.
  pose proof (target_of_GetCompact_le t ltac:(lia)). lia.
Qed.

Lemma uint32_difference (a b : Z) :
  in_uint32 a = true -> in_uint32 b = true -> in_int64 (a - b) = true.
Proof.
  intros Ha Hb. apply in_uint32_spec in Ha. apply in_uint32_spec in Hb.
  apply in_int64_spec. ranges.
Qed.

(** What [CalculateNextWorkRequired] returns stays within the limit when the
    bits of the last header do. *)
Lemma computedWork_within
    (last : CBlockIndex) (first : Z) (params : Params) :
  params_ok params = true ->
  target_of (nBits last) <= powLimit params ->
  0 <= target_of (computedWork last first params) <= powLimit params.
Proof.
  intros Hok Hlast.
  destruct (params_ok_spec params Hok) as (Hsp & H4 & Hpl).
  unfold computedWork.
  destruct (fPowNoRetargeting params).
  - pose proof (target_of_nonneg (nBits last)). lia.
  - apply Encode_within; [|lia].
    apply computedTarget_bounds; lia.
Qed.

(** *** GetNextWorkRequired *)

(** X1. On a chain that is linked down to a block of height 0, with fields
    in their types and every stored target within [powLimit],
    [GetNextWorkRequired] returns, on and off the retarget boundary and with
    any setting of the two rules, and the bits it returns decode to a
    target within [powLimit]. *)
Theorem GetNextWorkRequired_keeps_limit
    (lastHeader : CBlockIndex) (pblock : CBlockHeader) (params : Params) :
  params_ok params = true ->
  index_ok lastHeader = true ->
  nHeight lastHeader < INT_MAX ->
  from_genesis lastHeader = true ->
  targets_within params lastHeader = true ->
  exists bits,
    returns (Pow.GetNextWorkRequired (Some lastHeader) pblock params) bits
    /\ 0 <= target_of bits <= powLimit params.
Proof.
  intros Hok Hidx Hmax Hgen Hin.
  destruct (params_ok_spec params Hok) as (Hsp & H4 & Hpl).
  destruct (interval_defined params Hok) as (_ & Hi1 & _).
  apply andb_true_iff in Hgen as [Hl Hg]. apply Z.eqb_eq in Hg.
  pose proof (linked_oldest_le lastHeader Hl) as Hh.
  pose proof (targets_within_in params lastHeader) as Hall.
  destruct (Z.eq_dec ((nHeight lastHeader + 1) mod interval params) 0)
    as [Hon|Hoff].
  - destruct (GetNextWorkRequired_on_boundary lastHeader pblock params)
      as (H0 & Hrun); try assumption; [lia|].
    destruct (GetAncestor_linked lastHeader
                (nHeight lastHeader - (interval params - 1)) Hl H0)
      as (first & Hga & Hfin & _); [lia|].
    rewrite Hga in Hrun.
    destruct (index_ok_in lastHeader first Hidx Hfin) as [_ Htf].
    destruct (index_ok_in lastHeader lastHeader Hidx (self_in _)) as [_ Htl].
    rewrite CalculateNextWorkRequired_computed in Hrun
      by (right; repeat split;
          [lia | lia | apply uint32_difference; assumption]).
    eexists. split; [eexists; exact Hrun|].
    apply computedWork_within; [assumption|].
    apply Hall; [assumption | apply self_in].
  - rewrite GetNextWorkRequired_off_boundary by assumption.
    destruct (fPowAllowMinDifficultyBlocks params).
    + destruct (hdr_nTime pblock >?
                nTime lastHeader + nPowTargetSpacing params * 2).
      * eexists. split; [eexists; reflexivity|].
        apply Encode_within; lia.
      * eexists. split; [eexists; reflexivity|].
        pose proof (target_of_nonneg (nBits (walk_stop params lastHeader))).
        pose proof (Hall (walk_stop params lastHeader) Hin
                      (walk_stop_in params lastHeader)). lia.
    + eexists. split; [eexists; reflexivity|].
      pose proof (target_of_nonneg (nBits lastHeader)).
      pose proof (Hall lastHeader Hin (self_in _)). lia.
Qed.

(** X1, on the boundary after block 1 of a chain of two blocks. *)
Lemma GetNextWorkRequired_keeps_limit_witness :
  exists bits,
    returns (Pow.GetNextWorkRequired (Some block1) (mkBlockHeader 2200)
               test_params) bits
    /\ 0 <= target_of bits <= powLimit test_params.
Proof.
  apply (GetNextWorkRequired_keeps_limit block1 (mkBlockHeader 2200)
           test_params); vm_compute; congruence.
Defined.

(** X2. Off the retarget boundary the bits of the last header are returned
    unchanged when the minimum-difficulty rule is off, and also when it is
    on, the candidate is within the allowance and the last header does not
    carry the minimum-difficulty bits. *)
Theorem GetNextWorkRequired_keeps_bits
    (lastHeader : CBlockIndex) (pblock : CBlockHeader) (params : Params) :
  params_ok params = true ->
  index_ok lastHeader = true ->
  nHeight lastHeader < INT_MAX ->
  (nHeight lastHeader + 1) mod interval params <> 0 ->
  fPowAllowMinDifficultyBlocks params = false
  \/ (hdr_nTime pblock <= nTime lastHeader + 2 * nPowTargetSpacing params
      /\ nBits lastHeader <> Encode (powLimit params)) ->
  Pow.GetNextWorkRequired (Some lastHeader) pblock params
    = Some (nBits lastHeader, []).
Proof.
  intros Hok Hidx Hmax Hoff Hcase.
  rewrite GetNextWorkRequired_off_boundary by assumption.
  destruct (fPowAllowMinDifficultyBlocks params) eqn:Hallow; [|reflexivity].
  destruct Hcase as [Habs|[Htime Hbits]]; [discriminate|].
  destruct (Z.gtb_spec (hdr_nTime pblock)
              (nTime lastHeader + nPowTargetSpacing params * 2)); [lia|].
  rewrite walk_stop_self; [reflexivity|].
  unfold breaks_walk. apply orb_true_iff. right.
  destruct (Z.eqb_spec (nBits lastHeader) (Encode (powLimit params)));
    [contradiction|reflexivity].
Qed.

(** X2, after a block of real difficulty at height 4, windows of four
    blocks, the rule on. *)
Lemma GetNextWorkRequired_keeps_bits_witness :
  Pow.GetNextWorkRequired (Some b4) (mkBlockHeader 5600) test4_params
    = Some (0x1c00ffff, []).
Proof.
  apply (GetNextWorkRequired_keeps_bits b4 (mkBlockHeader 5600) test4_params);
    try (vm_compute; congruence).
  right. split; vm_compute; congruence.
Defined.

(** X3. On the retarget boundary of a linked chain that reaches back far
    enough, [GetNextWorkRequired] is [CalculateNextWorkRequired] with the
    time of the block [interval - 1] heights below the last header: the
    window that is measured spans [interval - 1] block intervals. *)
Theorem GetNextWorkRequired_window
    (lastHeader : CBlockIndex) (pblock : CBlockHeader) (params : Params) :
  params_ok params = true ->
  index_ok lastHeader = true ->
  nHeight lastHeader < INT_MAX ->
  linked lastHeader = true ->
  0 <= nHeight (oldest lastHeader) ->
  nHeight (oldest lastHeader) <= nHeight lastHeader - (interval params - 1) ->
  (nHeight lastHeader + 1) mod interval params = 0 ->
  exists pindexFirst,
    In pindexFirst (ancestors lastHeader)
    /\ nHeight pindexFirst = nHeight lastHeader - (interval params - 1)
    /\ Pow.GetNextWorkRequired (Some lastHeader) pblock params
       = Pow.CalculateNextWorkRequired lastHeader (nTime pindexFirst) params.
Proof.
  intros Hok Hidx Hmax Hl Hold Hreach Hon.
  destruct (interval_defined params Hok) as (_ & Hi1 & _).
  pose proof (linked_oldest_le lastHeader Hl) as Hh.
  destruct (GetNextWorkRequired_on_boundary lastHeader pblock params)
    as (H0 & Hrun); try assumption; [lia|].
  destruct (GetAncestor_linked lastHeader
              (nHeight lastHeader - (interval params - 1)) Hl H0)
    as (first & Hga & Hfin & Hhf); [lia|].
  rewrite Hga in Hrun.
  exists first. repeat split; assumption.
Qed.

(** X3, with windows of two blocks after block 1: the time of block 0 is
    the start of the window. *)
Lemma GetNextWorkRequired_window_witness :
  exists pindexFirst,
    In pindexFirst (ancestors block1)
    /\ nHeight pindexFirst = nHeight block1 - (interval test_params - 1)
    /\ Pow.GetNextWorkRequired (Some block1) (mkBlockHeader 2200) test_params
       = Pow.CalculateNextWorkRequired block1 (nTime pindexFirst) test_params.
Proof.
  apply (GetNextWorkRequired_window block1 (mkBlockHeader 2200) test_params);
    vm_compute; congruence.
Defined.

(** X4. On the retarget boundary of a chain that does not reach back to the
    start of the window (every block is above the height asked for),
    [GetNextWorkRequired] has no result: [assert(pindexFirst)] fails. *)
Theorem GetNextWorkRequired_short_chain
    (lastHeader : CBlockIndex) (pblock : CBlockHeader) (params : Params) :
  params_ok params = true ->
  index_ok lastHeader = true ->
  0 <= nHeight lastHeader < INT_MAX ->
  (nHeight lastHeader + 1) mod interval params = 0 ->
  (forall a, In a (ancestors lastHeader) ->
             nHeight lastHeader - (interval params - 1) < nHeight a) ->
  Pow.GetNextWorkRequired (Some lastHeader) pblock params = None.
Proof.
  intros Hok Hidx Hh Hon Hshort.
  destruct (GetNextWorkRequired_on_boundary lastHeader pblock params)
    as (H0 & Hrun); try assumption.
  rewrite Hrun, GetAncestor_below by assumption. reflexivity.
Qed.

(** X4, at height 2015 with windows of 2016 blocks and no block below. *)
Lemma GetNextWorkRequired_short_chain_witness :
  Pow.GetNextWorkRequired (Some (tip 0x1d00ffff)) (mkBlockHeader 1500000600)
    main_params = None.
Proof.
  apply (GetNextWorkRequired_short_chain (tip 0x1d00ffff)
           (mkBlockHeader 1500000600) main_params);
    try (vm_compute; congruence).
  - split; vm_compute; congruence.
  - intros a [<-|[]]. vm_compute. reflexivity.
Defined.

End PowChainFacts.

(** ** pow.cpp: one retarget step, and the check *)

Module PowStepFacts.
Import Cxx arith_uint256 Chain Spec Examples.
Import CxxFacts CompactFacts PowFacts.

Lemma clamp_below (a b lo hi : Z) :
  lo <= hi -> a <= lo -> b <= lo -> clamp a lo hi = clamp b lo hi.
Proof. unfold clamp. lia. Qed.

Lemma clamp_above (a b lo hi : Z) :
  hi <= a -> hi <= b -> clamp a lo hi = clamp b lo hi.
Proof. unfold clamp. lia. Qed.

Lemma quarter_le (T : Z) : 0 < T -> 0 <= T / 4 <= T.
Proof.
  intros HT. pose proof (Z.div_pos T 4 ltac:(lia) ltac:(lia)).
  pose proof (Z.div_le_upper_bound T 4 T ltac:(lia) ltac:(lia)). lia.
Qed.

(** The new target when the product fits 256 bits. *)
Lemma newTarget_fits (bits a : Z) (params : Params) :
  0 < nPowTargetTimespan params ->
  target_of bits * (nPowTargetTimespan params * 4) < modulus ->
  newTarget bits a params =
    Z.min (powLimit params)
          (target_of bits
           * clamp a (nPowTargetTimespan params / 4)
                     (nPowTargetTimespan params * 4)
           / nPowTargetTimespan params).
Proof.
  intros HT Hfit. unfold newTarget, Decode.
  fold (target_of bits).
  pose proof (target_of_nonneg bits) as Htg.
  pose proof (quarter_le _ HT) as Hq.
  set (T := nPowTargetTimespan params) in *.
  assert (Hc : 0 <= clamp a (T / 4) (T * 4) <= T * 4) by (unfold clamp; lia).
  rewrite wrap_small by nia. reflexivity.
Qed.

(** *** CalculateNextWorkRequired *)

(** X5. The limit of the adjustment step: two windows that both took at
    most a quarter of the target timespan, or both at least four times the
    target timespan, give the same required work. *)
Theorem CalculateNextWorkRequired_limits_step
    (lastHeader : CBlockIndex) (first1 first2 : Z) (params : Params) :
  0 < nPowTargetTimespan params ->
  nPowTargetTimespan params * 4 <= INT64_MAX ->
  in_int64 (nTime lastHeader - first1) = true ->
  in_int64 (nTime lastHeader - first2) = true ->
  (nTime lastHeader - first1 <= nPowTargetTimespan params / 4
   /\ nTime lastHeader - first2 <= nPowTargetTimespan params / 4)
  \/ (nPowTargetTimespan params * 4 <= nTime lastHeader - first1
      /\ nPowTargetTimespan params * 4 <= nTime lastHeader - first2) ->
  exists bits,
    returns (Pow.CalculateNextWorkRequired lastHeader first1 params) bits
    /\ returns (Pow.CalculateNextWorkRequired lastHeader first2 params) bits.
Proof.
  intros HT H4 Hr1 Hr2 Hcase.
  pose proof (quarter_le _ HT) as Hq.
  assert (Heq : computedWork lastHeader first2 params
                = computedWork lastHeader first1 params).
  { unfold computedWork, computedTarget.
    destruct (fPowNoRetargeting params); [reflexivity|].
    destruct Hcase as [[H1 H2]|[H1 H2]].
    - rewrite (clamp_below (nTime lastHeader - first2)
                 (nTime lastHeader - first1)) by lia. reflexivity.
    - rewrite (clamp_above (nTime lastHeader - first2)
                 (nTime lastHeader - first1)) by lia. reflexivity. }
  exists (computedWork lastHeader first1 params).
  split.
  - eexists. apply CalculateNextWorkRequired_computed. right.
    repeat split; assumption.
  - eexists. rewrite CalculateNextWorkRequired_computed
      by (right; repeat split; assumption).
    rewrite Heq. reflexivity.
Qed.

(** X5, on windows of one hour and of one day against a target timespan of
    two weeks. *)
Lemma CalculateNextWorkRequired_limits_step_witness :
  exists bits,
    returns (Pow.CalculateNextWorkRequired (tip 0x1c00ffff)
               (1500000000 - 3600) main_params) bits
    /\ returns (Pow.CalculateNextWorkRequired (tip 0x1c00ffff)
                  (1500000000 - 86400) main_params) bits.
Proof.
  apply (CalculateNextWorkRequired_limits_step (tip 0x1c00ffff)
           (1500000000 - 3600) (1500000000 - 86400) main_params);
    try (vm_compute; congruence).
  left. split; vm_compute; congruence.
Defined.

(** X6. One retarget step moves the target by a factor of four at most:
    when four times the target timespan fits 32 bits and, times the old
    target, 256 bits, the new target is at most four times the old one and
    at most the limit; when the target timespan is a multiple of 4 it is at
    least a quarter of the old one, rounded down, or the limit if that is
    less. *)
Theorem CalculateNextTarget_factor_four
    (lastHeader : CBlockIndex) (firstBlockTime : Z) (params : Params) :
  0 < nPowTargetTimespan params ->
  nPowTargetTimespan params * 4 <= UINT32_MAX ->
  in_int64 (nTime lastHeader - firstBlockTime) = true ->
  target_of (nBits lastHeader) * (nPowTargetTimespan params * 4) < modulus ->
  exists t,
    returns (Pow.CalculateNextTarget lastHeader firstBlockTime params) t
    /\ t <= 4 * target_of (nBits lastHeader)
    /\ t <= powLimit params
    /\ (nPowTargetTimespan params mod 4 = 0 ->
        Z.min (powLimit params) (target_of (nBits lastHeader) / 4) <= t).
Proof.
  intros HT H4 Hr Hfit.
  exists (newTarget (nBits lastHeader) (nTime lastHeader - firstBlockTime) params).
  split; [eexists; apply CalculateNextTarget_defined; assumption|].
  rewrite newTarget_fits by assumption.
  pose proof (target_of_nonneg (nBits lastHeader)) as Htg.
  pose proof (quarter_le _ HT) as Hq.
  set (tg := target_of (nBits lastHeader)) in *.
  set (T := nPowTargetTimespan params) in *.
  set (c := clamp (nTime lastHeader - firstBlockTime) (T / 4) (T * 4)).
  assert (Hc : T / 4 <= c <= T * 4) by (subst c; unfold clamp; lia).
  assert (Hup : tg * c / T <= 4 * tg).
  { apply Z.div_le_upper_bound; [lia|nia]. }
  split; [lia|]. split; [lia|].
  intros Hmod.
  assert (Hlow : tg / 4 <= tg * c / T).
  { apply Z.div_le_lower_bound; [lia|].
    assert (HT4 : T = 4 * (T / 4))
      by (pose proof (Z.div_mod T 4 ltac:(lia)); lia).
    pose proof (Z.mul_div_le tg 4 ltac:(lia)). nia. }
  lia.
Qed.

(** X6, on a window that took ten minutes. *)
Lemma CalculateNextTarget_factor_four_witness :
  exists t,
    returns (Pow.CalculateNextTarget (tip 0x1c00ffff) (1500000000 - 600)
               main_params) t
    /\ t <= 4 * target_of 0x1c00ffff
    /\ Z.min (powLimit main_params) (target_of 0x1c00ffff / 4) <= t.
Proof.
  destruct (CalculateNextTarget_factor_four (tip 0x1c00ffff)
              (1500000000 - 600) main_params)
    as (t & Hr & Hup & _ & Hlow); [vm_compute; congruence .. |].
  exists t. split; [exact Hr|]. split; [exact Hup|].
  apply Hlow. reflexivity.
Defined.

(** X7. A window that took exactly the target timespan leaves the target
    as it was, when the timespan fits 32 bits, the old target is within the
    limit and its product with the timespan fits 256 bits; the bits of the
    last header come back whenever they are the compact form of their own
    target. *)
Theorem CalculateNextWorkRequired_on_schedule
    (lastHeader : CBlockIndex) (firstBlockTime : Z) (params : Params) :
  fPowNoRetargeting params = false ->
  0 < nPowTargetTimespan params ->
  nPowTargetTimespan params * 4 <= INT64_MAX ->
  nPowTargetTimespan params <= UINT32_MAX ->
  nTime lastHeader - firstBlockTime = nPowTargetTimespan params ->
  target_of (nBits lastHeader) <= powLimit params ->
  target_of (nBits lastHeader) * nPowTargetTimespan params < modulus ->
  GetCompact (target_of (nBits lastHeader)) = nBits lastHeader ->
  returns (Pow.CalculateNextTarget lastHeader firstBlockTime params)
          (target_of (nBits lastHeader))
  /\ returns (Pow.CalculateNextWorkRequired lastHeader firstBlockTime params)
             (nBits lastHeader).
Proof.
  intros Hno HT H4 H32 Hspan Hle Hfit Hcanon.
  pose proof (target_of_nonneg (nBits lastHeader)) as Htg.
  pose proof (quarter_le _ HT) as Hq.
  assert (Hr : in_int64 (nTime lastHeader - firstBlockTime) = true)
    by (apply in_int64_spec; ranges).
  assert (Hnew : computedTarget (nBits lastHeader)
                   (nTime lastHeader - firstBlockTime) params
                 = target_of (nBits lastHeader)).
  { unfold computedTarget, Decode. fold (target_of (nBits lastHeader)).
    rewrite Hspan.
    set (T := nPowTargetTimespan params) in *.
    assert (Hc : clamp T (T / 4) (T * 4) = T) by (unfold clamp; lia).
    rewrite Hc, (Z.mod_small T) by ranges.
    rewrite wrap_small by lia.
    rewrite Z.div_mul by lia. lia. }
  split.
  - eexists. rewrite CalculateNextTarget_computed by assumption.
    rewrite Hnew. reflexivity.
  - eexists. rewrite CalculateNextWorkRequired_computed
      by (right; repeat split; assumption).
    unfold computedWork, Encode.
    rewrite Hno, Hnew, Hcanon. reflexivity.
Qed.

(** X7, on a window of exactly two weeks. *)
Lemma CalculateNextWorkRequired_on_schedule_witness :
  returns (Pow.CalculateNextTarget (tip 0x1c00ffff) (1500000000 - 1209600)
             main_params) (target_of 0x1c00ffff)
  /\ returns (Pow.CalculateNextWorkRequired (tip 0x1c00ffff)
                (1500000000 - 1209600) main_params) 0x1c00ffff.
Proof.
  apply (CalculateNextWorkRequired_on_schedule (tip 0x1c00ffff)
           (1500000000 - 1209600) main_params); vm_compute; congruence.
Defined.

(** *** CheckProofOfWork *)

Lemma CheckProofOfWork_true (hash nBits : Z) (params : Params) :
  returns (Pow.CheckProofOfWork hash nBits params) true <->
  snd (fst (SetCompact nBits)) = false /\ snd (SetCompact nBits) = false
  /\ target_of nBits <> 0 /\ target_of nBits <= powLimit params
  /\ hash <= target_of nBits.
Proof.
  unfold returns, Pow.CheckProofOfWork, UintToArith256, target_of.
  destruct (SetCompact nBits) as [[target negative] overflow]. cbn [fst snd].
  destruct (Z.eqb_spec target 0) as [Hz|Hz],
           (Z.gtb_spec target (powLimit params)) as [Hl|Hl],
           (Z.gtb_spec hash target) as [Hh|Hh],
           negative, overflow; cbn [orb];
    (split; [intros [o Ho]; try discriminate Ho; repeat split; assumption
            | intros (Hn & Ho & Hnz & Hle & Hhash);
              try discriminate; try contradiction; try lia;
              eexists; reflexivity]).
Qed.

(** X8. [CheckProofOfWork] never accepts a hash above the proof-of-work
    limit, whatever the bits are: an accepted hash is at most a target that
    is positive and at most [powLimit]. *)
Theorem CheckProofOfWork_accepts_within_limit
    (hash nBits : Z) (params : Params) :
  returns (Pow.CheckProofOfWork hash nBits params) true ->
  hash <= target_of nBits /\ 0 < target_of nBits <= powLimit params
  /\ hash <= powLimit params.
Proof.
  intros H. apply CheckProofOfWork_true in H as (_ & _ & Hnz & Hle & Hh).
  pose proof (target_of_nonneg nBits). lia.
Qed.

(** X8, on the hash 1 against the limit itself. *)
Lemma CheckProofOfWork_accepts_within_limit_witness :
  1 <= target_of 0x1d00ffff /\ 0 < target_of 0x1d00ffff <= powLimit main_params
  /\ 1 <= powLimit main_params.
Proof.
  apply (CheckProofOfWork_accepts_within_limit 1 0x1d00ffff main_params).
  eexists. reflexivity.
Defined.

(** X9. Acceptance is kept by a smaller hash and by a larger limit: when
    [CheckProofOfWork] accepts a hash for some bits, it accepts every hash
    that is not larger for the same bits, under every limit that is not
    smaller. *)
Theorem CheckProofOfWork_monotone
    (hash hash' nBits : Z) (params params' : Params) :
  returns (Pow.CheckProofOfWork hash nBits params) true ->
  hash' <= hash ->
  powLimit params <= powLimit params' ->
  returns (Pow.CheckProofOfWork hash' nBits params') true.
Proof.
  intros H Hh Hl. apply CheckProofOfWork_true.
  apply CheckProofOfWork_true in H as (Hn & Ho & Hnz & Hle & Hhash).
  repeat split; try assumption; lia.
Qed.

(** X9, from the limit 0x1d00ffff to the limit 0x207fffff and from the
    hash 2^200 to the hash 5. *)
Lemma CheckProofOfWork_monotone_witness :
  returns (Pow.CheckProofOfWork 5 0x1c00ffff wide_params) true.
Proof.
  apply (CheckProofOfWork_monotone (2 ^ 200) 5 0x1c00ffff main_params
           wide_params).
  - eexists. reflexivity.
  - vm_compute. congruence.
  - vm_compute. congruence.
Defined.

End PowStepFacts.

(** ** hash.h: the SHA-256 based hashers *)

Module HashersFacts.
Import Roulette Hashers.

(** [CHash256::Finalize] after the bytes [data]: SHA-256 twice. *)
Lemma CHash256_Finalize_double (sha256 : hasher) (data : list byte) :
  fst (CHash256_Finalize sha256 (hwrite sha256 (hinit sha256) data))
  = one_shot sha256 (firstn 32 (one_shot sha256 data)).
Proof.
  unfold CHash256_Finalize, one_shot.
  destruct (hfinalize sha256 (hwrite sha256 (hinit sha256) data)).
  reflexivity.
Qed.

(** The guarded pointer, read for the length of the range, gives the
    bytes of the range. *)
Lemma guarded_first_bytes (range : list byte) :
  exists src, guarded_first range = Some src
              /\ firstn (List.length range) src = range.
Proof.
  destruct range as [|b range].
  - exists pblank. split; reflexivity.
  - exists (b :: range). split; [reflexivity|apply firstn_all].
Qed.

Lemma Hash1_double (sha256 : hasher) (input : list byte) :
  Hash1 sha256 input =
    Some (one_shot sha256 (firstn 32 (one_shot sha256 input))).
Proof.
  unfold Hash1. destruct (guarded_first_bytes input) as (src & -> & ->).
  unfold CHash256_Write, CHash256_new.
  rewrite CHash256_Finalize_double. reflexivity.
Qed.

(** The model of [Hash] that sees [CSHA256] as a function of the bytes
    written is this one. *)
Lemma Hash1_models_agree (sha256 : hasher) (input : list byte) :
  Roulette.Hash (one_shot sha256) input = Hash1 sha256 input.
Proof.
  rewrite Hash1_double. unfold Roulette.Hash.
  destruct input as [|b input]; cbn [is_empty first_element].
  - reflexivity.
  - rewrite firstn_all. reflexivity.
Qed.

Lemma fold_write_ctx (sha256 : hasher) (chunks : list (list byte))
    (w : CHashWriter sha256) :
  streams sha256 ->
  fold_left (CHashWriter_write sha256) chunks w =
    {| ctx := hwrite sha256 (ctx sha256 w) (List.concat chunks);
       nType := nType sha256 w; nVersion := nVersion sha256 w |}.
Proof.
  intros [Hnil Happ]. revert w.
  induction chunks as [|c chunks IH]; intros w.
  - cbn. rewrite Hnil. destruct w; reflexivity.
  - cbn [fold_left List.concat]. rewrite IH.
    unfold CHashWriter_write, CHash256_Write. cbn [ctx nType nVersion].
    rewrite Happ. reflexivity.
Qed.

Lemma list_source_sequential : sequential list_source.
Proof.
  repeat split.
  - intros s n bytes s'. cbn.
    destruct (Nat.leb_spec n (List.length s)); [|discriminate].
    intros [= <- <-]. apply firstn_length_le. assumption.
  - intros s a b. cbn.
    destruct (Nat.leb_spec a (List.length s)) as [Ha|Ha].
    + rewrite length_skipn.
      destruct (Nat.leb_spec (a + b) (List.length s)) as [Hab|Hab];
        destruct (Nat.leb_spec b (List.length s - a)) as [Hb|Hb]; try lia;
        [|reflexivity].
      f_equal. f_equal.
      * rewrite <- (firstn_skipn a s) at 1.
        replace (a + b)%nat with (List.length (firstn a s) + b)%nat
          by (rewrite firstn_length_le by assumption; reflexivity).
        apply firstn_app_2.
      * rewrite skipn_skipn. f_equal. lia.
    + destruct (Nat.leb_spec (a + b) (List.length s)); [lia|reflexivity].
Qed.

Lemma toy_hasher_streams (size : nat) (tag : N) : streams (toy_hasher size tag).
Proof.
  split; cbn.
  - intros s. apply app_nil_r.
  - intros s a b. symmetry. apply app_assoc.
Qed.

(** Two reads in a row are one read of the two lengths. *)
Lemma CHashVerifier_read_split (sha256 : hasher) (Src : source)
    (v : CHashVerifier sha256 Src) (a b : nat) :
  streams sha256 -> sequential Src ->
  CHashVerifier_read sha256 Src v (a + b) =
    match CHashVerifier_read sha256 Src v a with
    | None => None
    | Some (x, v1) =>
        match CHashVerifier_read sha256 Src v1 b with
        | None => None
        | Some (y, v2) => Some (x ++ y, v2)
        end
    end.
Proof.
  intros [Hnil Happ] (Hlen & Hzero & Hsplit).
  unfold CHashVerifier_read. rewrite Hsplit.
  destruct (sread Src (source_ sha256 Src v) a) as [[x s1]|] eqn:Ha;
    [|reflexivity].
  cbn [source_ writer].
  destruct (sread Src s1 b) as [[y s2]|] eqn:Hb; [|reflexivity].
  apply Hlen in Ha. apply Hlen in Hb. subst a b.
  rewrite <- length_app, !firstn_all.
  unfold CHashWriter_write, CHash256_Write. cbn [ctx nType nVersion].
  rewrite Happ. reflexivity.
Qed.

Lemma CHashVerifier_read_zero (sha256 : hasher) (Src : source)
    (v : CHashVerifier sha256 Src) :
  streams sha256 -> sequential Src ->
  CHashVerifier_read sha256 Src v 0 = Some ([], v).
Proof.
  intros [Hnil Happ] (Hlen & Hzero & Hsplit).
  unfold CHashVerifier_read. rewrite Hzero.
  unfold CHashWriter_write, CHash256_Write. cbn [firstn].
  rewrite Hnil. destruct v as [[c t ver] s]. reflexivity.
Qed.

(** With turns enough for the bytes, the loop is one read. *)
Lemma ignore_loop_read (sha256 : hasher) (Src : source) (turns : nat) :
  streams sha256 -> sequential Src ->
  forall (nSize : nat) (v : CHashVerifier sha256 Src),
    (nSize <= turns)%nat ->
    ignore_loop sha256 Src turns v nSize =
      option_map snd (CHashVerifier_read sha256 Src v nSize).
Proof.
  intros Hst Hseq.
  induction turns as [|turns IH]; intros nSize v Hle.
  - assert (nSize = 0%nat) as -> by lia. cbn [ignore_loop].
    rewrite CHashVerifier_read_zero by assumption. reflexivity.
  - destruct nSize as [|n].
    + cbn [ignore_loop].
      rewrite CHashVerifier_read_zero by assumption. reflexivity.
    + cbn [ignore_loop]. cbv zeta.
      replace (CHashVerifier_read sha256 Src v (S n))
        with (CHashVerifier_read sha256 Src v
                (Nat.min (S n) 1024 + (S n - Nat.min (S n) 1024)))
        by (f_equal; lia).
      rewrite CHashVerifier_read_split by assumption.
      destruct (CHashVerifier_read sha256 Src v (Nat.min (S n) 1024))
        as [[x v1]|] eqn:Hr; [|reflexivity].
      rewrite IH by lia.
      destruct (CHashVerifier_read sha256 Src v1 (S n - Nat.min (S n) 1024))
        as [[y v2]|]; reflexivity.
Qed.

(** Instances for the runs below: stand-ins for SHA-256 (32 bytes) and
    RIPEMD-160 (20 bytes). *)
Example toy_hashers_run :
  option_map (@List.length byte)
    (Hash1 (toy_hasher 32 1) [x42; x54; x43]) = Some 32%nat
  /\ option_map (@List.length byte)
       (Hash160 (toy_hasher 32 1) (toy_hasher 20 2) [x42; x54; x43])
     = Some 20%nat
  /\ option_map (firstn 2) (Hash1 (toy_hasher 32 1) []) = Some [xd8; x39].
Proof. repeat split; vm_compute; reflexivity. Qed.

(** X10. [Hash] has a result on every range, the empty one included, and
    it is SHA-256 applied twice to exactly the bytes of the range: the
    byte of [pblank] that stands in for an empty range is never hashed. *)
Theorem Hash1_every_range (sha256 : hasher) (input : list byte) :
  Hash1 sha256 input =
    Some (one_shot sha256 (firstn 32 (one_shot sha256 input))).
Proof. apply Hash1_double. Qed.

(** X11. When SHA-256 hashes the stream of what is written to it, the hash
    of two ranges is the hash of their concatenation, empty ranges
    included. *)
Theorem Hash2_is_Hash1_of_concatenation
    (sha256 : hasher) (in1 in2 : list byte) :
  streams sha256 ->
  Hash2 sha256 in1 in2 = Hash1 sha256 (in1 ++ in2).
Proof.
  intros [Hnil Happ]. rewrite Hash1_double. unfold Hash2.
  destruct (guarded_first_bytes in1) as (src1 & -> & ->).
  destruct (guarded_first_bytes in2) as (src2 & -> & ->).
  unfold CHash256_Write, CHash256_new.
  rewrite Happ, CHash256_Finalize_double. reflexivity.
Qed.

(** X11, on "BT" and "C", and on an empty first range. *)
Lemma Hash2_is_Hash1_of_concatenation_witness :
  Hash2 (toy_hasher 32 1) [x42; x54] [x43]
    = Hash1 (toy_hasher 32 1) [x42; x54; x43]
  /\ Hash2 (toy_hasher 32 1) [] [x43] = Hash1 (toy_hasher 32 1) [x43].
Proof.
  split.
  - apply (Hash2_is_Hash1_of_concatenation (toy_hasher 32 1) [x42; x54] [x43]).
    apply toy_hasher_streams.
  - apply (Hash2_is_Hash1_of_concatenation (toy_hasher 32 1) [] [x43]).
    apply toy_hasher_streams.
Defined.

(** X12. [Hash160] has a result on every range, the empty one included:
    RIPEMD-160 of the 32 bytes of SHA-256 of exactly the bytes of the
    range; the overloads for vectors give the same. *)
Theorem Hash160_every_range (sha256 ripemd160 : hasher) (input : list byte) :
  Hash160 sha256 ripemd160 input =
    Some (one_shot ripemd160 (firstn 32 (one_shot sha256 input)))
  /\ Hash160_vector sha256 ripemd160 input = Hash160 sha256 ripemd160 input.
Proof.
  split; [|reflexivity].
  unfold Hash160. destruct (guarded_first_bytes input) as (src & -> & ->).
  unfold CHash160_Write, CHash160_new, CHash160_Finalize, one_shot.
  destruct (hfinalize sha256 (hwrite sha256 (hinit sha256) input)).
  reflexivity.
Qed.

(** X13. When SHA-256 hashes the stream of what is written to it, the hash
    of a serialization is SHA-256 twice of the bytes written, put together:
    it does not depend on how [Serialize] splits them into [write] calls,
    and an object that writes nothing hashes as the empty string. *)
Theorem SerializeHash_of_bytes
    (sha256 : hasher) (T : Type) (Serialize : Z -> Z -> T -> list (list byte))
    (obj : T) (nTypeIn nVersionIn : Z) :
  streams sha256 ->
  SerializeHash sha256 T Serialize obj nTypeIn nVersionIn =
    one_shot sha256
      (firstn 32
         (one_shot sha256 (List.concat (Serialize nTypeIn nVersionIn obj)))).
Proof.
  intros Hst. unfold SerializeHash, CHashWriter_shl, CHashWriter_GetHash.
  rewrite fold_write_ctx by assumption.
  cbn [ctx nType nVersion CHashWriter_new]. unfold CHash256_new.
  rewrite <- CHash256_Finalize_double.
  destruct (CHash256_Finalize sha256 _). reflexivity.
Qed.

(** X13, on a serializer that writes the bytes of a list two at a time,
    against one that writes them one at a time. *)
Lemma SerializeHash_of_bytes_witness :
  SerializeHash (toy_hasher 32 1) (list byte)
    (fun _ _ l => [firstn 2 l; skipn 2 l]) [x42; x54; x43] 1 70015
  = SerializeHash (toy_hasher 32 1) (list byte)
      (fun _ _ l => List.map (fun b => [b]) l) [x42; x54; x43] 1 70015.
Proof.
  rewrite (SerializeHash_of_bytes (toy_hasher 32 1) (list byte)
             (fun _ _ l => [firstn 2 l; skipn 2 l]))
    by apply toy_hasher_streams.
  rewrite (SerializeHash_of_bytes (toy_hasher 32 1) (list byte)
             (fun _ _ l => List.map (fun b => [b]) l))
    by apply toy_hasher_streams.
  reflexivity.
Defined.

(** X14. When the hasher and the source work on streams of bytes,
    [ignore(nSize)] leaves the verifier as one [read] of [nSize] bytes
    does: the same bytes hashed in the same order, the same position in
    the source, and no result when the source cannot give [nSize] bytes;
    the chunks of 1024 bytes do not show. *)
Theorem CHashVerifier_ignore_is_read
    (sha256 : hasher) (Src : source) (v : CHashVerifier sha256 Src)
    (nSize : nat) :
  streams sha256 -> sequential Src ->
  CHashVerifier_ignore sha256 Src v nSize =
    option_map snd (CHashVerifier_read sha256 Src v nSize).
Proof.
  intros Hst Hseq. unfold CHashVerifier_ignore.
  apply ignore_loop_read; [assumption | assumption | lia].
Qed.

(** X14, on 2500 of the 3000 bytes of a source, and on 3001 of them. *)
Lemma CHashVerifier_ignore_is_read_witness :
  option_map (fun v => List.length (source_ (toy_hasher 32 1) list_source v))
    (CHashVerifier_ignore (toy_hasher 32 1) list_source
       (CHashVerifier_new (toy_hasher 32 1) list_source (List.repeat x2a 3000))
       2500) = Some 500%nat
  /\ CHashVerifier_ignore (toy_hasher 32 1) list_source
       (CHashVerifier_new (toy_hasher 32 1) list_source (List.repeat x2a 3000))
       3001 = None.
Proof.
  split.
  - rewrite (CHashVerifier_ignore_is_read (toy_hasher 32 1) list_source)
      by (apply toy_hasher_streams || apply list_source_sequential).
    vm_compute. reflexivity.
  - rewrite (CHashVerifier_ignore_is_read (toy_hasher 32 1) list_source)
      by (apply toy_hasher_streams || apply list_source_sequential).
    vm_compute. reflexivity.
Defined.

End HashersFacts.

(** ** hash.h: more on RouletteHash *)

Module RouletteRounds.
Import Sph Roulette RouletteFacts.

Lemma table_nth (d : digest64) :
  exists a, nth_error table (selector d) = Some a.
Proof.
  pose proof (selector_lt d) as Hlt.
  destruct (nth_error table (selector d)) as [a|] eqn:Hn; [eauto|].
  apply nth_error_None in Hn. cbn in Hn. lia.
Qed.

(** X15. On every range with a first element [RouletteHash] returns
    exactly 32 bytes. *)
Theorem RouletteHash_returns_32_bytes
    (sph : library) (ctx : locals sph) (input : list byte) :
  input <> [] ->
  exists out, RouletteHash sph ctx input = Some out /\ List.length out = 32%nat.
Proof.
  intros Hne. rewrite RouletteHash_nonempty by assumption.
  eexists. split; [reflexivity|].
  unfold RouletteHash_reference.
  rewrite firstn_length_le; [reflexivity|].
  rewrite Vector.length_to_list. lia.
Qed.

(** X15, on "BTC". *)
Lemma RouletteHash_returns_32_bytes_witness :
  exists out,
    RouletteHash toy toy_locals [x42; x54; x43] = Some out
    /\ List.length out = 32%nat.
Proof.
  apply (RouletteHash_returns_32_bytes toy toy_locals [x42; x54; x43]).
  discriminate.
Defined.

(** X16. The [default] branch of the [switch] is never taken: every round
    rehashes the whole 64-byte digest with the primitive that the table has
    at the selector, so no round leaves the digest as it was for want of a
    case. *)
Theorem round_always_rehashes
    (sph : library) (ctx : locals sph) (hash : digest64) :
  exists a,
    nth_error table (selector hash) = Some a
    /\ round sph (ctx, hash)
       = init_update_close sph a (Vector.to_list hash) ctx
    /\ snd (round sph (ctx, hash)) = digest (sph a) (Vector.to_list hash).
Proof.
  pose proof (selector_lt hash) as Hlt.
  unfold round, selector in *.
  destruct (N.land (Byte.to_N (Vector.hd hash)) 15) as [|p].
  - eexists. split; [reflexivity|]. split; [reflexivity|].
    apply init_update_close_hash.
  - do 4 (try destruct p as [p|p|]);
      try (exfalso; lia);
      (eexists; split; [reflexivity|]; split; [reflexivity|];
       apply init_update_close_hash).
Qed.

End RouletteRounds.
